(** * A web-service scaffold: application bootstrap and health sub-router

    Shallow embedding of the two Python modules of the [base-python]
    template,

    - [src/routes/health.py]: the health sub-router ([start_time],
      [health], [ready]);
    - [src/main.py]: the application bootstrap (environment, CORS
      middleware, router mounting, [root], the [__main__] launcher).

    Module bodies and endpoint functions are computations in a state and
    exception monad over the interpreter state.  Python's [float] is
    IEEE-754 binary64, modelled by Rocq's primitive floats; the wall clock
    read by [time.time()] is an oracle giving the successive readings.
    The calls into FastAPI, python-dotenv and uvicorn are modelled by what
    they record: the routes and the middleware of the application, the
    variables added to the environment, the arguments of [uvicorn.run]. *)

From Stdlib Require Import ZArith List Bool Lia Floats.
From stdpp Require Import base option gmap strings.
Import ListNotations.

Local Open Scope string_scope.

(** ** Python values and exceptions *)

(** The values that appear in the response bodies. *)
Inductive pyobj : Type :=
  | PyStr (s : string)
  | PyFloat (x : float)
  | PyBool (b : bool).

(** A [dict] display with string keys, in insertion order. *)
Definition pydict : Type := list (string * pyobj).

(** [d.get(key)]. *)
Fixpoint dict_get (d : pydict) (key : string) : option pyobj :=
  match d with
  | [] => None
  | (k, v) :: d' => if String.eqb k key then Some v else dict_get d' key
  end.

Inductive exn : Type :=
  | ValueError
  | NameError.

Inductive outcome (A : Type) : Type :=
  | Return (a : A)
  | Raise (e : exn).
Arguments Return {A} a.
Arguments Raise {A} e.

(** ** The framework objects the modules build *)

(** The endpoint functions of the two modules. *)
Inductive endpoint : Type :=
  | Root
  | Health
  | Ready.

(** A registered route: [@router.get(path)] registers the method [GET]. *)
Record Route : Type := mkRoute {
  route_path : string;
  route_methods : list string;
  route_endpoint : endpoint;
}.

(** The keyword arguments given to [CORSMiddleware]. *)
Record CORSMiddleware : Type := mkCORS {
  allow_origins : list string;
  allow_credentials : bool;
  allow_methods : list string;
  allow_headers : list string;
}.

Record FastAPI : Type := mkApp {
  title : string;
  user_middleware : list CORSMiddleware;
  routes : list Route;
}.

(** The call the launcher makes to [uvicorn.run]. *)
Record uvicorn_run : Type := mkRun {
  run_app : string;
  run_host : string;
  run_port : Z;
  run_reload : bool;
}.

(** ** Interpreter state *)

(** [clock_reads] counts the calls made to [time.time()] (it indexes the
    clock oracle), [dotenv] is the content of the [.env] file that
    [load_dotenv] finds (empty when there is none).  The other fields are
    the program's own state: the process environment and the module
    globals, [None] while a global is not bound yet. *)
Record State : Type := mkState {
  clock_reads : nat;
  dotenv : gmap string string;
  os_environ : gmap string string;
  start_time : option float;
  router : option (list Route);
  app : option FastAPI;
}.

(** The state of a fresh interpreter. *)
Definition boot (environ file : gmap string string) : State :=
  {| clock_reads := 0; dotenv := file; os_environ := environ;
     start_time := None; router := None; app := None |}.

(** One more reading of the clock has been taken. *)
Definition tick (st : State) : State :=
  {| clock_reads := S (clock_reads st); dotenv := dotenv st;
     os_environ := os_environ st; start_time := start_time st;
     router := router st; app := app st |}.

(** The program's own state, apart from the position in the clock. *)
Definition program_state (st : State)
  : gmap string string * option float * option (list Route) * option FastAPI :=
  (os_environ st, start_time st, router st, app st).

(** ** The monad *)

Definition M (A : Type) : Type := State -> outcome A * State.

#[global] Instance M_ret : MRet M := fun A a st => (Return a, st).

#[global] Instance M_bind : MBind M := fun A B f m st =>
  match m st with
  | (Return a, st') => f a st'
  | (Raise e, st') => (Raise e, st')
  end.

Definition raise {A : Type} (e : exn) : M A := fun st => (Raise e, st).

Definition get_state : M State := fun st => (Return st, st).

Definition put_state (st : State) : M unit := fun _ => (Return tt, st).

(** Reading a module global that may not be bound. *)
Definition load_global {A : Type} (field : State -> option A) : M A :=
  st ← get_state;
  match field st with
  | Some v => mret v
  | None => raise NameError
  end.

Section Scaffold.

(** The values the generator substitutes for the placeholders
    [{{PROJECT_NAME}}] and [{{PORT}}]. *)
Variable PROJECT_NAME : string.
Variable PORT : Z.

(** The wall clock: [wall_clock n] is what the [n]-th call of
    [time.time()] returns (counting from 0).  Nothing orders the readings:
    [time.time()] follows the system clock, and returns a lower value than
    a call before it when the system clock was set back in between. *)
Variable wall_clock : nat -> float.

(** Python's builtin [int] on a [str]: [Some n] when the text denotes the
    integer [n], [None] when it raises [ValueError]. *)
Variable int_of_str : string -> option Z.

(** *** Library calls *)

(** [time.time()] *)
Definition time_time : M float := fun st =>
  (Return (wall_clock (clock_reads st)), tick st).

(** [load_dotenv()]: the variables of the [.env] file are added to the
    environment; a variable that is already set keeps its value. *)
Definition load_dotenv : M unit := fun st =>
  (Return tt,
   {| clock_reads := clock_reads st; dotenv := dotenv st;
      os_environ := os_environ st ∪ dotenv st; start_time := start_time st;
      router := router st; app := app st |}).

(** [os.getenv(key, default)] with an integer default. *)
Definition os_getenv (key : string) (default : Z) : M (string + Z) :=
  st ← get_state;
  match os_environ st !! key with
  | Some v => mret (inl v)
  | None => mret (inr default)
  end.

(** [int(x)] for [x] a [str] or an [int]. *)
Definition int_ (x : string + Z) : M Z :=
  match x with
  | inl s =>
      match int_of_str s with
      | Some n => mret n
      | None => raise ValueError
      end
  | inr n => mret n
  end.

(** *** routes/health.py *)

Definition set_router (r : list Route) : M unit := fun st =>
  (Return tt,
   {| clock_reads := clock_reads st; dotenv := dotenv st;
      os_environ := os_environ st; start_time := start_time st;
      router := Some r; app := app st |}).

Definition set_start_time (t : float) : M unit := fun st =>
  (Return tt,
   {| clock_reads := clock_reads st; dotenv := dotenv st;
      os_environ := os_environ st; start_time := Some t;
      router := router st; app := app st |}).

Definition set_app (a : FastAPI) : M unit := fun st =>
  (Return tt,
   {| clock_reads := clock_reads st; dotenv := dotenv st;
      os_environ := os_environ st; start_time := start_time st;
      router := router st; app := Some a |}).

(** [@router.get(path)] *)
Definition router_get (path : string) (f : endpoint) : M unit :=
  r ← load_global router;
  set_router (r ++ [mkRoute path ["GET"] f]).

(** The module body, run when the module is imported. *)
Definition health_module : M unit :=
  set_router [];;
  t ← time_time;
  set_start_time t;;
  router_get "/" Health;;
  router_get "/ready" Ready.

(** [async def health()] *)
Definition health : M pydict :=
  now ← time_time;
  t0 ← load_global start_time;
  mret [("status", PyStr "healthy"); ("uptime", PyFloat (now - t0)%float)].

(** [async def ready()] *)
Definition ready : M pydict :=
  mret [("ready", PyBool true)].

(** *** main.py *)

(** [app.add_middleware(CORSMiddleware, ...)]: the newest middleware goes
    first. *)
Definition add_middleware (c : CORSMiddleware) : M unit :=
  a ← load_global app;
  set_app (mkApp (title a) (c :: user_middleware a) (routes a)).

(** [app.include_router(router, prefix=...)] *)
Definition include_router (prefix : string) : M unit :=
  r ← load_global router;
  a ← load_global app;
  set_app (mkApp (title a) (user_middleware a)
             (routes a ++
              map (fun x => mkRoute (prefix ++ route_path x) (route_methods x)
                              (route_endpoint x)) r)).

(** [@app.get(path)] *)
Definition app_get (path : string) (f : endpoint) : M unit :=
  a ← load_global app;
  set_app (mkApp (title a) (user_middleware a)
             (routes a ++ [mkRoute path ["GET"] f])).

(** [async def root()] *)
Definition root : M pydict :=
  mret [("message", PyStr ("Welcome to " ++ PROJECT_NAME))].

(** The module body up to the [__main__] guard. *)
Definition main_module : M unit :=
  health_module;;
  load_dotenv;;
  set_app (mkApp PROJECT_NAME [] []);;
  add_middleware (mkCORS ["*"] true ["*"] ["*"]);;
  include_router "/health";;
  app_get "/" Root.

(** The script run as [__main__]: the module body, then the launcher. *)
Definition main_script : M uvicorn_run :=
  main_module;;
  v ← os_getenv "PORT" PORT;
  port ← int_ v;
  mret (mkRun "main:app" "0.0.0.0" port true).

(** *** Serving *)

Definition call (f : endpoint) : M pydict :=
  match f with
  | Root => root
  | Health => health
  | Ready => ready
  end.

(** A line feed. *)
Definition newline : string := String (Ascii.ascii_of_nat 10) EmptyString.

(** Whether a request path matches the path of a route (one without
    parameters).  Starlette matches the request path against the regular
    expression [^path$], and [$] matches at the end of the text and also
    before a line feed that ends it. *)
Definition path_matches (route path : string) : bool :=
  String.eqb route path || String.eqb (route ++ newline) path.

Definition route_matches (method path : string) (r : Route) : bool :=
  path_matches (route_path r) path
  && existsb (String.eqb method) (route_methods r).

(** The endpoint a request is routed to, if any. *)
Definition dispatch (a : FastAPI) (method path : string) : option endpoint :=
  option_map route_endpoint (find (route_matches method path) (routes a)).

(** One request: [Some body] when an endpoint of the program answers it,
    [None] when the framework answers by itself. *)
Definition handle (method path : string) : M (option pydict) :=
  a ← load_global app;
  match dispatch a method path with
  | Some f => body ← call f; mret (Some body)
  | None => mret None
  end.

(** The states of a serving process: the module has been imported in a
    fresh interpreter, and requests have been served. *)
Inductive reachable (environ file : gmap string string) : State -> Prop :=
  | reach_import st :
      main_module (boot environ file) = (Return tt, st) ->
      reachable environ file st
  | reach_request st method path r st' :
      reachable environ file st ->
      handle method path st = (r, st') ->
      reachable environ file st'.

(** [serves st st']: requests lead from [st] to [st']. *)
Inductive serves : State -> State -> Prop :=
  | serves_refl st : serves st st
  | serves_step st method path r st' st'' :
      handle method path st = (r, st') ->
      serves st' st'' ->
      serves st st''.

End Scaffold.

(** * Counting a float in units of the smallest subnormal

    Definitions for the theory of binary floating-point subtraction below.
    Every finite number of a format with precision [prec] and exponent
    bound [emax] is an integer multiple of [2^emin]; the rounding of the
    format is the function [round] on these integers. *)

Module Binary.
Section Format.
Local Open Scope Z_scope.

Variables prec emax : Z.
Abbreviation emin := (SpecFloat.emin prec emax).

(** The number of binary digits of [n]. *)
Definition digits (n : Z) : Z := if n =? 0 then 0 else Z.log2 n + 1.

(** [n / 2^k] rounded to the nearest integer, ties to even. *)
Definition round_quot (k n : Z) : Z :=
  let q := n / 2 ^ k in
  let r := n mod 2 ^ k in
  if (2 ^ k <? 2 * r) || ((2 ^ k =? 2 * r) && Z.odd q) then q + 1 else q.

(** [n] rounded to a multiple of [2^k]. *)
Definition round_at (k n : Z) : Z := round_quot k n * 2 ^ k.

(** Rounding of a count [n >= 0]: the low bits are dropped so that [prec]
    bits stay. *)
Definition round_pos (n : Z) : Z := round_at (Z.max (digits n - prec) 0) n.

Definition round (n : Z) : Z :=
  if n <? 0 then - round_pos (- n) else round_pos n.

(** The count at which the finite numbers stop. *)
Definition huge : Z := 2 ^ (emax - emin).

Definition clamp (n : Z) : Z := Z.max (- huge) (Z.min n huge).

(** The count of a float; the infinities sit at [huge]. *)
Definition units (x : spec_float) : Z :=
  match x with
  | S754_zero _ => 0
  | S754_infinity s => cond_Zopp s huge
  | S754_nan => 0
  | S754_finite s m e => cond_Zopp s (Zpos m * 2 ^ (e - emin))
  end.

Definition is_nan_SF (x : spec_float) : bool :=
  match x with S754_nan => true | _ => false end.

Definition finite_SF (x : spec_float) : bool :=
  match x with S754_zero _ | S754_finite _ _ _ => true | _ => false end.

(** Valid floats other than NaN. *)
Definition ordinary (x : spec_float) : bool :=
  SpecFloat.valid_binary prec emax x && negb (is_nan_SF x).

End Format.
End Binary.

(** A binary64 number as a count of [2^-1074], the smallest positive
    number of the format. *)
Definition float_units (x : float) : Z := Binary.units prec emax (Prim2SF x).

(** ** The state of a serving process *)

Section Serving.

Variable PROJECT_NAME : string.
Variable wall_clock : nat -> float.
Variables environ file : gmap string string.

(** The application object once [main.py] has been imported. *)
Definition the_app : FastAPI :=
  mkApp PROJECT_NAME
    [mkCORS ["*"] true ["*"] ["*"]]
    [mkRoute "/health/" ["GET"] Health;
     mkRoute "/health/ready" ["GET"] Ready;
     mkRoute "/" ["GET"] Root].

(** The interpreter state of the process when [n] readings of the clock
    have been taken. *)
Definition serving (n : nat) : State :=
  {| clock_reads := n; dotenv := file; os_environ := environ ∪ file;
     start_time := Some (wall_clock 0);
     router := Some [mkRoute "/" ["GET"] Health; mkRoute "/ready" ["GET"] Ready];
     app := Some the_app |}.

(** The body [health] answers with at the [n]-th reading. *)
Definition health_body (n : nat) : pydict :=
  [("status", PyStr "healthy");
   ("uptime", PyFloat (wall_clock n - wall_clock 0)%float)].

End Serving.

(** ** Runs of requests *)

(** A request: its method and its path. *)
Definition request : Type := (string * string)%type.

Section Runs.

Variable PROJECT_NAME : string.
Variable wall_clock : nat -> float.

(** The requests of a list served one after the other; the answers come
    in the order of the requests. *)
Fixpoint serve_all (reqs : list request) : M (list (option pydict)) :=
  match reqs with
  | [] => mret []
  | (method, path) :: rest =>
      r ← handle PROJECT_NAME wall_clock method path;
      rs ← serve_all rest;
      mret (r :: rs)
  end.

End Runs.

(** Whether a request is a [GET] whose path matches [/health/]. *)
Definition is_health (r : request) : bool :=
  String.eqb r.1 "GET" && path_matches "/health/" r.2.

(** The paths of the three routes. *)
Definition route_paths : list string := ["/health/"; "/health/ready"; "/"].

(** The paths that match a route: a route's path, or that path and a
    line feed. *)
Definition routed (path : string) : Prop :=
  exists r, In r route_paths /\ (path = r \/ path = r ++ newline).

(** The uptime an answer reports, if it reports one. *)
Definition uptime_of (answer : option pydict) : option float :=
  match answer with
  | Some body =>
      match dict_get body "uptime" with
      | Some (PyFloat u) => Some u
      | _ => None
      end
  | None => None
  end.

(** The uptimes a list of answers reports, in order. *)
Fixpoint uptimes (answers : list (option pydict)) : list float :=
  match answers with
  | [] => []
  | a :: rest =>
      match uptime_of a with
      | Some u => u :: uptimes rest
      | None => uptimes rest
      end
  end.

(** The number of requests of a list that are routed to [health]. *)
Definition count_health (reqs : list request) : nat :=
  length (List.filter is_health reqs).

(** A run that mixes the three routes with requests no route takes; the
    last path ends in a line feed. *)
Definition sample_requests : list request :=
  [("GET", "/"); ("GET", "/health/"); ("POST", "/health/");
   ("GET", "/health/ready"); ("GET", "/health"); ("GET", "/health/");
   ("GET", "/health/" ++ newline)].

(** ** The listener *)

Section Launch.

Variable PROJECT_NAME : string.
Variable PORT : Z.
Variable wall_clock : nat -> float.
Variable int_of_str : string -> option Z.

(** The ports the system does not let the process bind (in use, not
    permitted). *)
Variable refused : Z -> bool.

(** Whether [uvicorn.run] gets its listener.  It binds a TCP socket on
    the host and the port it is given: [socket.bind] raises for a port
    outside 0..65535 and fails for a port the system refuses, and either
    way nothing listens. *)
Definition uvicorn_listens (r : uvicorn_run) : bool :=
  (0 <=? run_port r)%Z && (run_port r <=? 65535)%Z
  && negb (refused (run_port r)).

(** Whether the script run as [__main__] ends up listening. *)
Definition process_starts (environ file : gmap string string) : bool :=
  match
    main_script PROJECT_NAME PORT wall_clock int_of_str (boot environ file)
  with
  | (Return r, _) => uvicorn_listens r
  | (Raise _, _) => false
  end.

End Launch.

(** Whether a list of CORS options holds the wildcard. *)
Definition permits_all (options : list string) : bool :=
  existsb (String.eqb "*") options.

(** ** Sample runs *)

(** A clock that advances. *)
Definition steady_clock (n : nat) : float :=
  match n with
  | 0 => 1000
  | 1 => 1001.5
  | _ => 1002.25
  end%float.

(** A clock that is set back by 50 seconds between the second and the
    third reading. *)
Definition clock_set_back (n : nat) : float :=
  match n with
  | 0 => 1000
  | 1 => 1100
  | _ => 1050
  end%float.

(** A clock that is set back before the first request. *)
Definition clock_before_start (n : nat) : float :=
  match n with
  | 0 => 1000
  | _ => 950
  end%float.

(** Plain decimal numerals, the texts every [int] accepts. *)
Definition digit_of (c : Ascii.ascii) : option Z :=
  let n := Z.of_N (Ascii.N_of_ascii c) in
  if ((48 <=? n) && (n <=? 57))%Z then Some (n - 48)%Z else None.

Fixpoint decimal_from (acc : Z) (s : string) : option Z :=
  match s with
  | EmptyString => Some acc
  | String c s' =>
      match digit_of c with
      | Some d => decimal_from (10 * acc + d)%Z s'
      | None => None
      end
  end.

Definition decimal (s : string) : option Z :=
  match s with
  | EmptyString => None
  | _ => decimal_from 0%Z s
  end.
(** * Binary floating-point subtraction is monotone

    The facts about [SpecFloat] that the uptime needs: for finite numbers
    [a <= b] of a format, [a - s <= b - s] after rounding, and [0 <= a - s]
    when [s <= a].  A float is read as an integer count of units of
    [2^emin] ([Binary.units]); [binary_round] is shown to compute
    [Binary.round_pos] on these counts, which is monotone, and [SFcompare]
    to compare the counts. *)

Module BinaryFacts.
Section Format.
Local Open Scope Z_scope.

Variables prec emax : Z.
Hypothesis prec_pos : 0 < prec.
Hypothesis prec_lt_emax : prec < emax.

Abbreviation emin := (SpecFloat.emin prec emax).
Abbreviation fexp := (SpecFloat.fexp prec emax).
Abbreviation digits := Binary.digits.
Abbreviation round_quot := Binary.round_quot.
Abbreviation round_at := Binary.round_at.
Abbreviation round_pos := (Binary.round_pos prec).
Abbreviation round := (Binary.round prec).
Abbreviation huge := (Binary.huge prec emax).
Abbreviation clamp := (Binary.clamp prec emax).
Abbreviation units := (Binary.units prec emax).
Abbreviation is_nan_SF := Binary.is_nan_SF.
Abbreviation finite_SF := Binary.finite_SF.
Abbreviation ordinary := (Binary.ordinary prec emax).

(** *** Binary digits *)

Lemma digits_pos_bounds (m : positive) :
  2 ^ (Zpos (digits2_pos m) - 1) <= Zpos m < 2 ^ Zpos (digits2_pos m).
Proof.
  induction m as [m IH|m IH|]; cbn [digits2_pos]; [| |cbn; lia];
    rewrite Pos2Z.inj_succ;
    set (d := Zpos (digits2_pos m)) in *;
    replace (Z.succ d - 1) with (Z.succ (d - 1)) by lia;
    rewrite !Z.pow_succ_r by lia; lia.
Qed.

Lemma digits_bounds (n : Z) : 0 < n -> 2 ^ (digits n - 1) <= n < 2 ^ digits n.
Proof.
  intros Hn. unfold digits. destruct (Z.eqb_spec n 0) as [->|_]; [lia|].
  replace (Z.log2 n + 1 - 1) with (Z.log2 n) by lia.
  replace (Z.log2 n + 1) with (Z.succ (Z.log2 n)) by lia.
  apply Z.log2_spec; lia.
Qed.

Lemma digits_unique (n d : Z) :
  2 ^ (d - 1) <= n < 2 ^ d -> 0 < d -> digits n = d.
Proof.
  intros H Hd. assert (0 < n) by (pose proof (Z.pow_pos_nonneg 2 (d - 1)); lia).
  unfold digits. destruct (Z.eqb_spec n 0); [lia|].
  rewrite (Z.log2_unique n (d - 1)); try lia.
  replace (Z.succ (d - 1)) with d by lia. lia.
Qed.

Lemma digits_Zpos (m : positive) : digits (Zpos m) = Zpos (digits2_pos m).
Proof. apply digits_unique; [apply digits_pos_bounds|lia]. Qed.

Lemma digits_nonneg n : 0 <= digits n.
Proof.
  unfold digits. destruct (n =? 0); [lia|].
  pose proof (Z.log2_nonneg n). lia.
Qed.

Lemma digits_pos n : 0 < n -> 0 < digits n.
Proof.
  intros Hn. unfold digits. destruct (Z.eqb_spec n 0); [lia|].
  pose proof (Z.log2_nonneg n). lia.
Qed.

Lemma digits_le n1 n2 : 0 <= n1 <= n2 -> digits n1 <= digits n2.
Proof.
  intros H. unfold digits.
  destruct (Z.eqb_spec n1 0), (Z.eqb_spec n2 0); try lia.
  - pose proof (Z.log2_nonneg n2). lia.
  - pose proof (Z.log2_le_mono n1 n2). lia.
Qed.

Lemma digits_mul_pow2 n t :
  0 < n -> 0 <= t -> digits (n * 2 ^ t) = digits n + t.
Proof.
  intros Hn Ht. pose proof (digits_bounds n Hn) as [H1 H2].
  pose proof (digits_pos n Hn).
  apply digits_unique; [|lia].
  replace (digits n + t - 1) with (digits n - 1 + t) by lia.
  rewrite !Z.pow_add_r by lia.
  pose proof (Z.pow_pos_nonneg 2 t). nia.
Qed.

(** *** Rounding at a fixed position *)

Lemma round_quot_bounds k n :
  0 <= k -> n / 2 ^ k <= round_quot k n <= n / 2 ^ k + 1.
Proof. intros _. unfold round_quot. destruct (_ || _); lia. Qed.

(** Rounding at one position is monotone: a larger quotient wins, and
    with equal quotients the larger remainder rounds up first. *)
Lemma round_quot_mono k n1 n2 :
  0 <= k -> 0 <= n1 <= n2 -> round_quot k n1 <= round_quot k n2.
Proof.
  intros Hk Hn.
  assert (Hu : 0 < 2 ^ k) by (apply Z.pow_pos_nonneg; lia).
  pose proof (Z.div_le_mono n1 n2 (2 ^ k) Hu ltac:(lia)) as Hq.
  pose proof (round_quot_bounds k n1 Hk).
  pose proof (round_quot_bounds k n2 Hk).
  destruct (Z.eq_dec (n1 / 2 ^ k) (n2 / 2 ^ k)) as [E|NE]; [|lia].
  pose proof (Z.div_mod n1 (2 ^ k) ltac:(lia)) as D1.
  pose proof (Z.div_mod n2 (2 ^ k) ltac:(lia)) as D2.
  unfold round_quot. rewrite E in *.
  set (r1 := n1 mod 2 ^ k) in *. set (r2 := n2 mod 2 ^ k) in *.
  destruct (Z.ltb_spec (2 ^ k) (2 * r1)), (Z.ltb_spec (2 ^ k) (2 * r2));
    destruct (Z.eqb_spec (2 ^ k) (2 * r1)), (Z.eqb_spec (2 ^ k) (2 * r2));
    cbn [orb andb]; destruct (Z.odd (n2 / 2 ^ k)); lia.
Qed.

Lemma round_at_mono k n1 n2 :
  0 <= k -> 0 <= n1 <= n2 -> round_at k n1 <= round_at k n2.
Proof.
  intros Hk Hn. unfold round_at.
  apply Z.mul_le_mono_nonneg_r; [apply Z.pow_nonneg; lia|].
  now apply round_quot_mono.
Qed.

Lemma round_at_0 n : round_at 0 n = n.
Proof.
  unfold round_at, round_quot. rewrite Z.pow_0_r, Z.div_1_r, Z.mod_1_r.
  rewrite Z.mul_0_r. cbn. lia.
Qed.

(** Trailing zero bits do not change the rounding. *)
Lemma round_quot_scale j t m :
  0 <= j -> 0 <= t -> round_quot (j + t) (m * 2 ^ t) = round_quot j m.
Proof.
  intros Hj Ht. unfold round_quot.
  assert (0 < 2 ^ t) by (apply Z.pow_pos_nonneg; lia).
  assert (0 < 2 ^ j) by (apply Z.pow_pos_nonneg; lia).
  rewrite Z.pow_add_r by lia.
  rewrite Z.div_mul_cancel_r by lia.
  rewrite Z.mul_mod_distr_r by lia.
  set (r := m mod 2 ^ j). set (u := 2 ^ j) in *. set (v := 2 ^ t) in *.
  assert (L : (u * v <? 2 * (r * v)) = (u <? 2 * r)).
  { destruct (Z.ltb_spec u (2 * r)), (Z.ltb_spec (u * v) (2 * (r * v)));
      try reflexivity; nia. }
  assert (Q : (u * v =? 2 * (r * v)) = (u =? 2 * r)).
  { destruct (Z.eqb_spec u (2 * r)), (Z.eqb_spec (u * v) (2 * (r * v)));
      try reflexivity; nia. }
  rewrite L, Q. reflexivity.
Qed.

(** *** Bounds and monotonicity of [round_pos] *)

Lemma round_pos_0 : round_pos 0 = 0.
Proof.
  unfold round_pos. cbn [digits Z.eqb]. rewrite Z.max_r by lia.
  apply round_at_0.
Qed.

(** A rounded number stays within the binade of its argument, upper
    end included. *)
Lemma round_pos_bounds n :
  0 < n -> 2 ^ (digits n - 1) <= round_pos n <= 2 ^ digits n.
Proof.
  intros Hn. pose proof (digits_bounds n Hn) as [Hlo Hhi].
  pose proof (digits_pos n Hn) as Hd.
  unfold round_pos.
  destruct (Z.max_spec (digits n - prec) 0) as [[Hk ->]|[Hk ->]].
  - rewrite round_at_0. lia.
  - set (k := digits n - prec) in *.
    assert (Hu : 0 < 2 ^ k) by (apply Z.pow_pos_nonneg; lia).
    pose proof (round_quot_bounds k n ltac:(lia)) as [Hq1 Hq2].
    assert (E1 : 2 ^ (digits n - 1) = 2 ^ (prec - 1) * 2 ^ k).
    { rewrite <- Z.pow_add_r by lia. f_equal. lia. }
    assert (E2 : 2 ^ digits n = 2 ^ prec * 2 ^ k).
    { rewrite <- Z.pow_add_r by lia. f_equal. lia. }
    assert (Hq : 2 ^ (prec - 1) <= n / 2 ^ k < 2 ^ prec).
    { split.
      - apply Z.div_le_lower_bound; lia.
      - apply Z.div_lt_upper_bound; lia. }
    unfold round_at. rewrite E1, E2. split; apply Z.mul_le_mono_nonneg_r; lia.
Qed.

Lemma round_pos_nonneg n : 0 <= n -> 0 <= round_pos n.
Proof.
  intros Hn. destruct (Z.eq_dec n 0) as [->|]; [rewrite round_pos_0; lia|].
  pose proof (round_pos_bounds n ltac:(lia)).
  pose proof (Z.pow_nonneg 2 (digits n - 1)). lia.
Qed.

Lemma round_pos_mono n1 n2 : 0 <= n1 <= n2 -> round_pos n1 <= round_pos n2.
Proof.
  intros [H1 H2].
  destruct (Z.eq_dec n1 0) as [->|N1].
  { rewrite round_pos_0. now apply round_pos_nonneg. }
  pose proof (digits_le n1 n2 ltac:(lia)) as Hd.
  destruct (Z.eq_dec (digits n1) (digits n2)) as [E|NE].
  - unfold round_pos. rewrite E. apply round_at_mono; lia.
  - pose proof (round_pos_bounds n1 ltac:(lia)) as [_ B1].
    pose proof (round_pos_bounds n2 ltac:(lia)) as [B2 _].
    pose proof (digits_pos n1 ltac:(lia)).
    assert (2 ^ digits n1 <= 2 ^ (digits n2 - 1))
      by (apply Z.pow_le_mono_r; lia).
    lia.
Qed.

Lemma round_mono n1 n2 : n1 <= n2 -> round n1 <= round n2.
Proof.
  intros H. unfold round.
  destruct (Z.ltb_spec n1 0), (Z.ltb_spec n2 0).
  - pose proof (round_pos_mono (- n2) (- n1)). lia.
  - pose proof (round_pos_nonneg (- n1)). pose proof (round_pos_nonneg n2). lia.
  - lia.
  - apply round_pos_mono. lia.
Qed.

Lemma clamp_mono n1 n2 : n1 <= n2 -> clamp n1 <= clamp n2.
Proof. unfold clamp. lia. Qed.

(** *** The shifts of the rounding procedure *)

(** [SpecFloat.iter_pos] iterates. *)
Lemma iter_pos_nat {A : Type} (f : A -> A) (p : positive) (x : A) :
  SpecFloat.iter_pos f p x = Nat.iter (Pos.to_nat p) f x.
Proof.
  revert x. induction p as [p IH|p IH|]; intros x; cbn [SpecFloat.iter_pos].
  - rewrite !IH, Pos2Nat.inj_xI.
    replace (S (2 * Pos.to_nat p))
      with (Pos.to_nat p + (Pos.to_nat p + 1))%nat by lia.
    rewrite !Nat.iter_add. reflexivity.
  - rewrite !IH, Pos2Nat.inj_xO.
    replace (2 * Pos.to_nat p)%nat
      with (Pos.to_nat p + Pos.to_nat p)%nat by lia.
    rewrite Nat.iter_add. reflexivity.
  - reflexivity.
Qed.

Lemma shr_1_nonneg m r s :
  0 <= m ->
  shr_1 (Build_shr_record m r s) = Build_shr_record (m / 2) (Z.odd m) (r || s).
Proof.
  intros Hm. rewrite <- Z.div2_div.
  destruct m as [|p|p]; [reflexivity| |lia].
  destruct p; reflexivity.
Qed.

Lemma mod_pow2_succ m i :
  0 <= i -> m mod 2 ^ (i + 1) = m mod 2 ^ i + 2 ^ i * Z.b2z (Z.odd (m / 2 ^ i)).
Proof.
  intros Hi. rewrite Z.pow_add_r, Z.pow_1_r by lia.
  assert (0 < 2 ^ i) by (apply Z.pow_pos_nonneg; lia).
  rewrite Z.rem_mul_r by lia.
  rewrite <- Z.bit0_odd, Z.bit0_mod. reflexivity.
Qed.

(** After [j] shifts the record holds the quotient by [2^j], the last
    bit shifted out and whether a lower bit was set. *)
Lemma shr_iter m (j : nat) :
  0 <= m -> (0 < j)%nat ->
  Nat.iter j shr_1 (Build_shr_record m false false) =
  Build_shr_record (m / 2 ^ Z.of_nat j)
    (Z.odd (m / 2 ^ (Z.of_nat j - 1)))
    (negb (m mod 2 ^ (Z.of_nat j - 1) =? 0)).
Proof.
  intros Hm Hj. induction j as [|j IH]; [lia|].
  destruct j as [|j].
  - cbn [Nat.iter]. rewrite shr_1_nonneg by lia.
    change (Z.of_nat 1 - 1) with 0. change (Z.of_nat 1) with 1.
    rewrite Z.pow_0_r, Z.pow_1_r, Z.div_1_r, Z.mod_1_r. reflexivity.
  - change (Nat.iter (S (S j)) shr_1 ?x) with (shr_1 (Nat.iter (S j) shr_1 x)).
    rewrite IH by lia.
    assert (0 < 2 ^ Z.of_nat (S j)) by (apply Z.pow_pos_nonneg; lia).
    rewrite shr_1_nonneg by (apply Z.div_pos; lia).
    replace (Z.of_nat (S (S j)) - 1) with (Z.of_nat (S j)) by lia.
    replace (Z.of_nat (S (S j))) with (Z.of_nat (S j) + 1) by lia.
    rewrite Z.pow_add_r, Z.pow_1_r by lia.
    rewrite Z.div_div by lia. f_equal.
    set (i := Z.of_nat (S j) - 1).
    replace (Z.of_nat (S j)) with (i + 1) by lia.
    rewrite (mod_pow2_succ m i) by lia.
    assert (0 < 2 ^ i) by (apply Z.pow_pos_nonneg; lia).
    pose proof (Z.mod_pos_bound m (2 ^ i) ltac:(lia)).
    destruct (Z.odd (m / 2 ^ i)); cbn [Z.b2z orb];
      destruct (Z.eqb_spec (m mod 2 ^ i) 0);
      destruct (Z.eqb_spec (m mod 2 ^ i + 2 ^ i * 1) 0);
      destruct (Z.eqb_spec (m mod 2 ^ i + 2 ^ i * 0) 0);
      cbn [negb]; try reflexivity; lia.
Qed.

(** [round_nearest_even] on such a record rounds at position [j]. *)
Lemma round_shr m j :
  0 <= m -> 0 < j ->
  round_nearest_even (m / 2 ^ j)
    (loc_of_shr_record
       (Build_shr_record (m / 2 ^ j) (Z.odd (m / 2 ^ (j - 1)))
          (negb (m mod 2 ^ (j - 1) =? 0)))) =
  round_quot j m.
Proof.
  intros Hm Hj. remember (j - 1) as i eqn:Ei.
  assert (j = i + 1) by lia. subst j. clear Ei.
  unfold round_quot. rewrite (mod_pow2_succ m i) by lia.
  assert (HP : 2 ^ (i + 1) = 2 * 2 ^ i)
    by (rewrite Z.pow_add_r, Z.pow_1_r by lia; lia).
  assert (0 < 2 ^ i) by (apply Z.pow_pos_nonneg; lia).
  pose proof (Z.mod_pos_bound m (2 ^ i) ltac:(lia)).
  rewrite <- (Z.negb_even (m / 2 ^ (i + 1))).
  destruct (Z.odd (m / 2 ^ i)); cbn [Z.b2z];
    destruct (Z.eqb_spec (m mod 2 ^ i) 0) as [E0|E0];
    cbn [negb loc_of_shr_record round_nearest_even];
    match goal with |- context [?a <? ?b] => destruct (Z.ltb_spec a b) end;
    match goal with |- context [?a =? ?b] => destruct (Z.eqb_spec a b) end;
    cbn [orb andb]; try lia; try reflexivity;
    destruct (Z.even _); reflexivity.
Qed.

Lemma round_quot_0 n : round_quot 0 n = n.
Proof.
  unfold round_quot.
  rewrite Z.pow_0_r, Z.div_1_r, Z.mod_1_r, Z.mul_0_r. reflexivity.
Qed.

(** The first shift of [binary_round_aux] and the rounding that follows
    it, from an exact mantissa. *)
Lemma shr_round m e j :
  0 <= m -> 0 <= j ->
  let '(mrs, e') := shr (Build_shr_record m false false) e j in
  round_nearest_even (shr_m mrs) (loc_of_shr_record mrs) = round_quot j m
  /\ e' = e + j.
Proof.
  intros Hm Hj. destruct j as [|p|p]; [| |lia].
  - cbn [shr shr_m loc_of_shr_record round_nearest_even].
    rewrite round_quot_0. split; [reflexivity|lia].
  - cbn [shr]. rewrite iter_pos_nat, shr_iter by lia.
    rewrite positive_nat_Z. cbn [shr_m].
    rewrite round_shr by lia. split; reflexivity.
Qed.

(** *** Canonical mantissas *)

Lemma canonical_spec m e :
  canonical_mantissa prec emax m e = true <->
  emin <= e /\ digits (Zpos m) <= prec /\ (digits (Zpos m) = prec \/ e = emin).
Proof.
  unfold canonical_mantissa, SpecFloat.fexp.
  rewrite Z.eqb_eq, <- digits_Zpos. lia.
Qed.

Lemma digits_div_pow2 n j :
  0 < n -> 0 <= j < digits n -> digits (n / 2 ^ j) = digits n - j.
Proof.
  intros Hn Hj. pose proof (digits_bounds n Hn) as [Hlo Hhi].
  assert (0 < 2 ^ j) by (apply Z.pow_pos_nonneg; lia).
  apply digits_unique; [|lia]. split.
  - apply Z.div_le_lower_bound; [lia|].
    rewrite <- Z.pow_add_r by lia.
    replace (j + (digits n - j - 1)) with (digits n - 1) by lia. lia.
  - apply Z.div_lt_upper_bound; [lia|].
    rewrite <- Z.pow_add_r by lia.
    replace (j + (digits n - j)) with (digits n) by lia. lia.
Qed.

Lemma Zdigits2_digits q : 0 <= q -> Zdigits2 q = digits q.
Proof.
  intros Hq. destruct q as [|p|p]; [reflexivity| |lia].
  cbn [Zdigits2]. now rewrite digits_Zpos.
Qed.

(** The second shift of [binary_round_aux] and its result. *)
Lemma round_finish sx q E :
  0 < q -> emin <= E ->
  digits q <= prec + 1 ->
  (digits q < prec -> E = emin) ->
  (digits q = prec + 1 -> q = 2 ^ prec) ->
  exists m' e',
    canonical_mantissa prec emax m' e' = true /\
    Zpos m' * 2 ^ (e' - emin) = q * 2 ^ (E - emin) /\
    (let '(mrs, e'') := shr_fexp prec emax q E loc_Exact in
     match shr_m mrs with
     | Z0 => S754_zero sx
     | Zpos m =>
         if e'' <=? emax - prec then S754_finite sx m e''
         else S754_infinity sx
     | Zneg _ => S754_nan
     end) =
    if e' <=? emax - prec then S754_finite sx m' e' else S754_infinity sx.
Proof.
  intros Hq HE Hd Hsub Hcarry.
  unfold shr_fexp. rewrite Zdigits2_digits by lia. cbn [shr_record_of_loc].
  unfold SpecFloat.fexp.
  destruct (Z.eq_dec (digits q) (prec + 1)) as [Dq|Dq].
  - replace (Z.max (digits q + E - prec) emin - E) with 1 by lia.
    cbn [shr SpecFloat.iter_pos]. rewrite shr_1_nonneg by lia. cbn [shr_m].
    rewrite (Hcarry Dq).
    assert (E2 : 2 ^ prec / 2 = 2 ^ (prec - 1)).
    { replace prec with (prec - 1 + 1) at 1 by lia.
      rewrite Z.pow_add_r, Z.pow_1_r by lia. apply Z.div_mul. lia. }
    rewrite E2.
    assert (P : 0 < 2 ^ (prec - 1)) by (apply Z.pow_pos_nonneg; lia).
    assert (E3 : 2 ^ prec = 2 * 2 ^ (prec - 1)).
    { replace prec with (prec - 1 + 1) at 1 by lia.
      rewrite Z.pow_add_r, Z.pow_1_r by lia. lia. }
    assert (Dp : digits (2 ^ (prec - 1)) = prec).
    { apply digits_unique; [|lia]. lia. }
    assert (E4 : 2 ^ (E + 1 - emin) = 2 * 2 ^ (E - emin)).
    { replace (E + 1 - emin) with (E - emin + 1) by lia.
      rewrite Z.pow_add_r, Z.pow_1_r by lia. lia. }
    destruct (2 ^ (prec - 1)) as [|p|p] eqn:Ep; try lia.
    exists p, (E + 1). split; [|split; [|reflexivity]].
    + apply canonical_spec. lia.
    + rewrite E3, E4. lia.
  - assert (Z.max (digits q + E - prec) emin - E = 0) as -> by lia.
    cbn [shr shr_m].
    destruct q as [|p|p]; try lia.
    exists p, E. split; [|split; [reflexivity|reflexivity]].
    apply canonical_spec. lia.
Qed.

(** [binary_round_aux] on an exact mantissa: a canonical mantissa and
    exponent worth [round_pos] of the argument, turned into an infinity
    when the exponent is too large. *)
Lemma binary_round_aux_exact sx mz ez :
  emin <= ez -> ez <= fexp (digits (Zpos mz) + ez) ->
  exists m' e',
    canonical_mantissa prec emax m' e' = true /\
    Zpos m' * 2 ^ (e' - emin) = round_pos (Zpos mz * 2 ^ (ez - emin)) /\
    binary_round_aux prec emax sx (Zpos mz) ez loc_Exact =
    if e' <=? emax - prec then S754_finite sx m' e' else S754_infinity sx.
Proof.
  intros Hez Hfexp.
  set (d := digits (Zpos mz)) in *.
  assert (Hd : 0 < d) by (apply digits_pos; lia).
  set (E := fexp (d + ez)) in *.
  set (j := E - ez).
  assert (HE : E = Z.max (d + ez - prec) emin) by reflexivity.
  pose proof (digits_bounds (Zpos mz) ltac:(lia)) as Hb. fold d in Hb.
  pose proof (digits_div_pow2 (Zpos mz) j ltac:(lia) ltac:(fold d; lia))
    as Hd1.
  fold d in Hd1.
  assert (Hu : 0 < 2 ^ j) by (apply Z.pow_pos_nonneg; lia).
  assert (Hm1 : 0 < Zpos mz / 2 ^ j).
  { apply Z.div_str_pos. split; [lia|].
    apply Z.le_trans with (2 ^ (d - 1)); [|lia]. apply Z.pow_le_mono_r; lia. }
  pose proof (digits_bounds _ Hm1) as Hb1. rewrite Hd1 in Hb1.
  pose proof (round_quot_bounds j (Zpos mz) ltac:(lia)) as Hq.
  set (q := round_quot j (Zpos mz)) in *.
  assert (Hdq : digits q = d - j \/ digits q = d - j + 1 /\ q = 2 ^ (d - j)).
  { destruct (Z.eq_dec q (2 ^ (d - j))) as [Eq|Nq].
    - right. split; [|exact Eq]. apply digits_unique; [|lia].
      rewrite Eq. replace (d - j + 1 - 1) with (d - j) by lia.
      split; [lia|]. apply Z.pow_lt_mono_r; lia.
    - left. apply digits_unique; lia. }
  destruct (round_finish sx q E) as (m' & e' & Hcan & Hval & Hres); try lia.
  { intros Hp. destruct Hdq as [Hdq|[Hdq Eq]]; [lia|].
    rewrite Eq. f_equal. lia. }
  exists m', e'. split; [exact Hcan|]. split.
  - rewrite Hval. unfold round_pos, round_at.
    rewrite digits_mul_pow2 by lia. fold d.
    replace (Z.max (d + (ez - emin) - prec) 0) with (j + (ez - emin)) by lia.
    rewrite round_quot_scale by lia. fold q. f_equal. f_equal. lia.
  - rewrite <- Hres. unfold binary_round_aux.
    unfold shr_fexp at 1. rewrite (Zdigits2_digits (Zpos mz)) by lia.
    fold d. fold E. fold j.
    cbn [shr_record_of_loc].
    pose proof (shr_round (Zpos mz) ez j ltac:(lia) ltac:(lia)) as Hsr.
    destruct (shr _ ez j) as [mrs e1]. destruct Hsr as [Hr He1].
    rewrite Hr. fold q. subst e1. replace (ez + j) with E by lia.
    reflexivity.
Qed.

(** *** Alignment and [binary_round] *)

Lemma iter_xO m d : Zpos (Pos.iter xO m d) = Zpos m * 2 ^ Zpos d.
Proof.
  induction d as [|d IH] using Pos.peano_ind.
  - cbn [Pos.iter]. rewrite Z.pow_1_r. lia.
  - rewrite Pos.iter_succ, Pos2Z.inj_succ, Z.pow_succ_r by lia.
    rewrite Pos2Z.inj_xO, IH. lia.
Qed.

Lemma shl_align_spec mx ex ex' :
  snd (shl_align mx ex ex') = Z.min ex ex' /\
  Zpos (fst (shl_align mx ex ex')) = Zpos mx * 2 ^ (ex - Z.min ex ex').
Proof.
  unfold shl_align. destruct (ex' - ex) as [|d|d] eqn:Ed; cbn [fst snd].
  - rewrite Z.min_l by lia. rewrite Z.sub_diag, Z.pow_0_r. lia.
  - rewrite Z.min_l by lia. rewrite Z.sub_diag, Z.pow_0_r. lia.
  - rewrite Z.min_r by lia. rewrite iter_xO. split; [reflexivity|].
    f_equal. f_equal. lia.
Qed.

Lemma pow2_split a b : 0 <= a -> 0 <= b -> 2 ^ (a + b) = 2 ^ a * 2 ^ b.
Proof. intros. apply Z.pow_add_r; lia. Qed.

Lemma binary_round_exact sx mx ex :
  emin <= ex ->
  exists m' e',
    canonical_mantissa prec emax m' e' = true /\
    Zpos m' * 2 ^ (e' - emin) = round_pos (Zpos mx * 2 ^ (ex - emin)) /\
    binary_round prec emax sx mx ex =
    if e' <=? emax - prec then S754_finite sx m' e' else S754_infinity sx.
Proof.
  intros Hex. unfold binary_round.
  rewrite <- digits_Zpos.
  set (E := fexp (digits (Zpos mx) + ex)).
  assert (HE : emin <= E) by (unfold E, SpecFloat.fexp; lia).
  pose proof (shl_align_spec mx ex E) as [Hez Hmz].
  destruct (shl_align mx ex E) as [mz ez]. cbn [fst snd] in Hez, Hmz.
  assert (Hd : digits (Zpos mz) + ez = digits (Zpos mx) + ex).
  { rewrite Hmz, digits_mul_pow2 by lia. lia. }
  destruct (binary_round_aux_exact sx mz ez) as (m' & e' & Hcan & Hval & Hres).
  { lia. }
  { rewrite Hd. fold E. lia. }
  exists m', e'. split; [exact Hcan|]. split; [|exact Hres].
  rewrite Hval, Hmz. rewrite <- Z.mul_assoc, <- pow2_split by lia.
  do 3 f_equal. lia.
Qed.

(** *** What the result of a rounding is worth *)

Lemma emin_le_emax : emin <= emax - prec.
Proof. unfold SpecFloat.emin. lia. Qed.

Lemma huge_pos : 0 < huge.
Proof. apply Z.pow_pos_nonneg; [lia|]. pose proof emin_le_emax. lia. Qed.

Lemma canonical_bounds m e :
  canonical_mantissa prec emax m e = true -> e <= emax - prec ->
  0 < Zpos m * 2 ^ (e - emin) < huge.
Proof.
  intros Hc He. apply canonical_spec in Hc as (H1 & H2 & _).
  pose proof (digits_bounds (Zpos m) ltac:(lia)) as [_ Hm].
  assert (0 < 2 ^ (e - emin)) by (apply Z.pow_pos_nonneg; lia).
  split; [lia|].
  apply Z.lt_le_trans with (2 ^ prec * 2 ^ (e - emin)).
  - apply Z.mul_lt_mono_pos_r; [lia|].
    apply Z.lt_le_trans with (2 ^ digits (Zpos m)); [lia|].
    apply Z.pow_le_mono_r; lia.
  - rewrite <- pow2_split by lia. apply Z.pow_le_mono_r; lia.
Qed.

Lemma canonical_overflow m e :
  canonical_mantissa prec emax m e = true -> emax - prec < e ->
  huge <= Zpos m * 2 ^ (e - emin).
Proof.
  intros Hc He. apply canonical_spec in Hc as (H1 & H2 & H3).
  pose proof emin_le_emax.
  assert (Hd : digits (Zpos m) = prec) by lia.
  pose proof (digits_bounds (Zpos m) ltac:(lia)) as [Hm _]. rewrite Hd in Hm.
  assert (0 < 2 ^ (e - emin)) by (apply Z.pow_pos_nonneg; lia).
  apply Z.le_trans with (2 ^ (prec - 1) * 2 ^ (e - emin)).
  - rewrite <- pow2_split by lia. apply Z.pow_le_mono_r; lia.
  - apply Z.mul_le_mono_nonneg_r; lia.
Qed.

(** Such a result is valid, is not NaN, and is worth the rounded count,
    cut at [huge]. *)
Lemma rounded_facts sx m e v :
  canonical_mantissa prec emax m e = true ->
  Zpos m * 2 ^ (e - emin) = v ->
  let r := if e <=? emax - prec then S754_finite sx m e else S754_infinity sx in
  SpecFloat.valid_binary prec emax r = true /\ is_nan_SF r = false /\
  units r = cond_Zopp sx (Z.min v huge).
Proof.
  intros Hc Hv. destruct (Z.leb_spec e (emax - prec)) as [He|He]; cbn zeta.
  - pose proof (canonical_bounds m e Hc He).
    cbn [SpecFloat.valid_binary is_nan_SF units]. unfold bounded. rewrite Hc.
    split; [|split; [reflexivity|]].
    + apply Z.leb_le in He. rewrite He. reflexivity.
    + rewrite Hv, Z.min_l by lia. reflexivity.
  - pose proof (canonical_overflow m e Hc He).
    cbn [SpecFloat.valid_binary is_nan_SF units].
    split; [reflexivity|split; [reflexivity|]].
    rewrite Z.min_r by lia. reflexivity.
Qed.

(** Rounding leaves the numbers of the format as they are. *)
Lemma round_pos_canonical m e :
  canonical_mantissa prec emax m e = true ->
  round_pos (Zpos m * 2 ^ (e - emin)) = Zpos m * 2 ^ (e - emin).
Proof.
  intros Hc. apply canonical_spec in Hc as (H1 & H2 & H3).
  pose proof (digits_pos (Zpos m) ltac:(lia)).
  unfold round_pos, round_at. rewrite digits_mul_pow2 by lia.
  set (k := Z.max (digits (Zpos m) + (e - emin) - prec) 0).
  assert (Hk : 0 <= k <= e - emin) by lia.
  replace (e - emin) with (e - emin - k + k) by lia.
  rewrite (pow2_split (e - emin - k) k) by lia.
  rewrite Z.mul_assoc.
  replace k with (0 + k) at 1 by lia.
  rewrite round_quot_scale by lia. rewrite round_quot_0. reflexivity.
Qed.

(** *** Comparison *)

Lemma canonical_lt m1 e1 m2 e2 :
  canonical_mantissa prec emax m1 e1 = true ->
  canonical_mantissa prec emax m2 e2 = true ->
  e1 < e2 ->
  Zpos m1 * 2 ^ (e1 - emin) < Zpos m2 * 2 ^ (e2 - emin).
Proof.
  intros H1 H2 He.
  apply canonical_spec in H1 as (A1 & A2 & _).
  apply canonical_spec in H2 as (B1 & B2 & B3).
  assert (Hd : digits (Zpos m2) = prec) by lia.
  pose proof (digits_bounds (Zpos m1) ltac:(lia)) as [_ U1].
  pose proof (digits_bounds (Zpos m2) ltac:(lia)) as [L2 _]. rewrite Hd in L2.
  assert (0 < 2 ^ (e1 - emin)) by (apply Z.pow_pos_nonneg; lia).
  assert (0 < 2 ^ (e2 - emin)) by (apply Z.pow_pos_nonneg; lia).
  apply Z.lt_le_trans with (2 ^ prec * 2 ^ (e1 - emin)).
  - apply Z.mul_lt_mono_pos_r; [lia|].
    apply Z.lt_le_trans with (2 ^ digits (Zpos m1)); [lia|].
    apply Z.pow_le_mono_r; lia.
  - apply Z.le_trans with (2 ^ (prec - 1) * 2 ^ (e2 - emin)).
    + rewrite <- !pow2_split by lia. apply Z.pow_le_mono_r; lia.
    + apply Z.mul_le_mono_nonneg_r; lia.
Qed.

Lemma canonical_compare m1 e1 m2 e2 :
  canonical_mantissa prec emax m1 e1 = true ->
  canonical_mantissa prec emax m2 e2 = true ->
  (Zpos m1 * 2 ^ (e1 - emin) ?= Zpos m2 * 2 ^ (e2 - emin)) =
  match e1 ?= e2 with
  | Lt => Lt
  | Gt => Gt
  | Eq => Pos.compare_cont Eq m1 m2
  end.
Proof.
  intros H1 H2. destruct (Z.compare_spec e1 e2) as [E|L|G].
  - subst e2. pose proof H1 as H1'. apply canonical_spec in H1' as (A1 & _).
    assert (0 < 2 ^ (e1 - emin)) by (apply Z.pow_pos_nonneg; lia).
    rewrite <- Zmult_compare_compat_r by lia. reflexivity.
  - apply Z.compare_lt_iff. now apply canonical_lt.
  - apply Z.compare_gt_iff. now apply canonical_lt.
Qed.

Lemma ordinary_exponent s m e :
  ordinary (S754_finite s m e) = true -> e <= emax - prec.
Proof.
  unfold ordinary. cbn [SpecFloat.valid_binary is_nan_SF negb].
  unfold bounded. rewrite andb_true_r.
  now intros [_ He%Z.leb_le]%andb_true_iff.
Qed.

Lemma ordinary_finite s m e :
  ordinary (S754_finite s m e) = true ->
  canonical_mantissa prec emax m e = true /\
  0 < Zpos m * 2 ^ (e - emin) < huge.
Proof.
  intros O. pose proof (ordinary_exponent s m e O) as He. revert O.
  unfold ordinary. cbn [SpecFloat.valid_binary is_nan_SF negb].
  unfold bounded. rewrite andb_true_r. intros [Hc _]%andb_true_iff.
  split; [exact Hc|]. now apply canonical_bounds.
Qed.

(** [SFcompare] compares the unit counts. *)
Lemma SFcompare_units x y :
  ordinary x = true -> ordinary y = true ->
  SFcompare x y = Some (units x ?= units y).
Proof.
  pose proof huge_pos as Hh.
  intros Hx Hy.
  destruct x as [sx|sx| |sx mx ex]; try discriminate Hx;
  destruct y as [sy|sy| |sy my ey]; try discriminate Hy;
  try (apply ordinary_finite in Hx as [Cx Bx]);
  try (apply ordinary_finite in Hy as [Cy By]);
  try (destruct sx); try (destruct sy);
  cbn [SFcompare units cond_Zopp];
  try (f_equal; symmetry;
       first [ apply Z.compare_eq_iff; lia
             | apply Z.compare_lt_iff; lia
             | apply Z.compare_gt_iff; lia ]).
  - rewrite Z.compare_opp, (Z.compare_antisym (Zpos mx * 2 ^ (ex - emin))),
      (canonical_compare mx ex my ey) by assumption.
    destruct (ex ?= ey); reflexivity.
  - rewrite (canonical_compare mx ex my ey) by assumption. reflexivity.
Qed.

Lemma SFleb_units x y :
  ordinary x = true -> ordinary y = true ->
  SFleb x y = (units x <=? units y).
Proof.
  intros Hx Hy. unfold SFleb, Z.leb. rewrite SFcompare_units by assumption.
  destruct (units x ?= units y); reflexivity.
Qed.

(** *** Subtraction *)

Lemma round_nonneg n : 0 <= n -> 0 <= round n.
Proof.
  intros Hn. unfold round. destruct (Z.ltb_spec n 0); [lia|].
  now apply round_pos_nonneg.
Qed.

Lemma clamp_round_0 : clamp (round 0) = 0.
Proof.
  pose proof huge_pos. unfold round. rewrite Z.ltb_irrefl, round_pos_0.
  unfold clamp. lia.
Qed.

Lemma clamp_round_canonical s m e :
  canonical_mantissa prec emax m e = true -> e <= emax - prec ->
  clamp (round (cond_Zopp s (Zpos m * 2 ^ (e - emin)))) =
  cond_Zopp s (Zpos m * 2 ^ (e - emin)).
Proof.
  intros Hc He. pose proof (canonical_bounds m e Hc He) as Hb.
  pose proof (round_pos_canonical m e Hc) as Hr.
  unfold clamp, round. destruct s; cbn [cond_Zopp].
  - destruct (Z.ltb_spec (- (Zpos m * 2 ^ (e - emin))) 0); [|lia].
    rewrite Z.opp_involutive, Hr. lia.
  - destruct (Z.ltb_spec (Zpos m * 2 ^ (e - emin)) 0); [lia|].
    rewrite Hr. lia.
Qed.

(** [binary_normalize] rounds the count it is given. *)
Lemma units_normalize D ez :
  emin <= ez ->
  ordinary (binary_normalize prec emax D ez false) = true /\
  units (binary_normalize prec emax D ez false) =
  clamp (round (D * 2 ^ (ez - emin))).
Proof.
  intros Hez. pose proof huge_pos as Hh.
  assert (Ht : 0 < 2 ^ (ez - emin)) by (apply Z.pow_pos_nonneg; lia).
  destruct D as [|p|p]; cbn [binary_normalize].
  - split; [reflexivity|]. cbn [units]. now rewrite Z.mul_0_l, clamp_round_0.
  - destruct (binary_round_exact false p ez Hez) as (m & e & Hc & Hv & ->).
    destruct (rounded_facts false m e _ Hc Hv) as (V & N & U).
    unfold ordinary. rewrite V, N, U. split; [reflexivity|].
    pose proof (round_pos_nonneg (Zpos p * 2 ^ (ez - emin)) ltac:(lia)).
    unfold round. destruct (Z.ltb_spec (Zpos p * 2 ^ (ez - emin)) 0); [lia|].
    unfold clamp. cbn [cond_Zopp]. lia.
  - destruct (binary_round_exact true p ez Hez) as (m & e & Hc & Hv & ->).
    destruct (rounded_facts true m e _ Hc Hv) as (V & N & U).
    unfold ordinary. rewrite V, N, U. split; [reflexivity|].
    pose proof (round_pos_nonneg (Zpos p * 2 ^ (ez - emin)) ltac:(lia)).
    unfold round. destruct (Z.ltb_spec (Zneg p * 2 ^ (ez - emin)) 0); [|lia].
    replace (- (Zneg p * 2 ^ (ez - emin)))
      with (Zpos p * 2 ^ (ez - emin)) by lia.
    unfold clamp. cbn [cond_Zopp]. lia.
Qed.

Lemma aligned_units s m e ez :
  emin <= ez -> ez <= e ->
  cond_Zopp s (Zpos (fst (shl_align m e ez))) * 2 ^ (ez - emin) =
  cond_Zopp s (Zpos m * 2 ^ (e - emin)).
Proof.
  intros H1 H2. pose proof (shl_align_spec m e ez) as [_ ->].
  rewrite Z.min_r by lia.
  replace (e - emin) with (e - ez + (ez - emin)) by lia.
  rewrite (pow2_split (e - ez) (ez - emin)) by lia.
  destruct s; cbn [cond_Zopp]; lia.
Qed.

(** The difference of two finite numbers is the rounded difference of
    their counts. *)
Lemma SFsub_units a s :
  ordinary a = true -> ordinary s = true ->
  finite_SF a = true -> finite_SF s = true ->
  ordinary (SFsub prec emax a s) = true /\
  units (SFsub prec emax a s) = clamp (round (units a - units s)).
Proof.
  pose proof huge_pos as Hh.
  intros Oa Os Fa Fs.
  destruct a as [sa|sa| |sa ma ea]; try discriminate Fa;
  destruct s as [ss|ss| |ss ms es]; try discriminate Fs; cbn [SFsub].
  - cbn [units]. rewrite Z.sub_diag, clamp_round_0.
    destruct sa, ss; split; reflexivity.
  - pose proof Os as Os'. apply ordinary_finite in Os' as [Cs Bs].
    split; [exact Os|].
    pose proof (ordinary_exponent ss ms es Os) as He.
    cbn [units].
    replace (0 - cond_Zopp ss (Zpos ms * 2 ^ (es - emin)))
      with (cond_Zopp (negb ss) (Zpos ms * 2 ^ (es - emin)))
      by (destruct ss; cbn [cond_Zopp negb]; lia).
    now rewrite clamp_round_canonical.
  - pose proof Oa as Oa'. apply ordinary_finite in Oa' as [Ca Ba].
    split; [exact Oa|].
    pose proof (ordinary_exponent sa ma ea Oa) as He.
    cbn [units]. rewrite Z.sub_0_r. now rewrite clamp_round_canonical.
  - pose proof Oa as Oa'. apply ordinary_finite in Oa' as [Ca _].
    pose proof Os as Os'. apply ordinary_finite in Os' as [Cs _].
    apply canonical_spec in Ca as (Ea & _).
    apply canonical_spec in Cs as (Es & _).
    set (ez := Z.min ea es).
    destruct (units_normalize
      (cond_Zopp sa (Zpos (fst (shl_align ma ea ez))) -
       cond_Zopp ss (Zpos (fst (shl_align ms es ez)))) ez ltac:(lia)) as [O U].
    split; [exact O|]. rewrite U. cbn [units].
    rewrite Z.mul_sub_distr_r, !aligned_units by lia. reflexivity.
Qed.

(** Subtracting the same finite number keeps the order. *)
Theorem SFsub_le_mono a b s :
  ordinary a = true -> ordinary b = true -> ordinary s = true ->
  finite_SF a = true -> finite_SF b = true -> finite_SF s = true ->
  SFleb a b = true ->
  SFleb (SFsub prec emax a s) (SFsub prec emax b s) = true.
Proof.
  intros Oa Ob Os Fa Fb Fs Hle.
  rewrite SFleb_units in Hle by assumption. apply Z.leb_le in Hle.
  destruct (SFsub_units a s Oa Os Fa Fs) as [O1 U1].
  destruct (SFsub_units b s Ob Os Fb Fs) as [O2 U2].
  rewrite SFleb_units, U1, U2 by assumption. apply Z.leb_le.
  apply clamp_mono, round_mono. lia.
Qed.

(** Subtracting a smaller finite number gives no negative number. *)
Theorem SFsub_nonneg a s :
  ordinary a = true -> ordinary s = true ->
  finite_SF a = true -> finite_SF s = true ->
  SFleb s a = true ->
  SFleb (S754_zero false) (SFsub prec emax a s) = true.
Proof.
  intros Oa Os Fa Fs Hle. pose proof huge_pos.
  rewrite SFleb_units in Hle by assumption. apply Z.leb_le in Hle.
  destruct (SFsub_units a s Oa Os Fa Fs) as [O1 U1].
  rewrite SFleb_units, U1 by (assumption || reflexivity). apply Z.leb_le.
  cbn [units].
  pose proof (round_nonneg (units a - units s) ltac:(lia)).
  unfold clamp. lia.
Qed.

(** *** Signs and exact differences *)

Lemma round_pos_pos n : 0 < n -> 0 < round_pos n.
Proof.
  intros Hn. pose proof (round_pos_bounds n Hn) as [H _].
  pose proof (digits_pos n Hn).
  pose proof (Z.pow_pos_nonneg 2 (digits n - 1)). lia.
Qed.

Lemma clamp_round_pos d : 0 < d -> 0 < clamp (round d).
Proof.
  intros Hd. pose proof huge_pos. pose proof (round_pos_pos d Hd).
  unfold round. destruct (Z.ltb_spec d 0); [lia|]. unfold clamp. lia.
Qed.

Lemma clamp_round_neg d : d < 0 -> clamp (round d) < 0.
Proof.
  intros Hd. pose proof huge_pos. pose proof (round_pos_pos (- d)).
  unfold round. destruct (Z.ltb_spec d 0); [|lia]. unfold clamp. lia.
Qed.

Lemma SFltb_units x y :
  ordinary x = true -> ordinary y = true ->
  SFltb x y = (units x <? units y).
Proof.
  intros Hx Hy. unfold SFltb, Z.ltb. rewrite SFcompare_units by assumption.
  destruct (units x ?= units y); reflexivity.
Qed.

Lemma SFeqb_units x y :
  ordinary x = true -> ordinary y = true ->
  SFeqb x y = (units x =? units y).
Proof.
  intros Hx Hy. unfold SFeqb. rewrite SFcompare_units by assumption.
  destruct (Z.compare_spec (units x) (units y)) as [E|L|G].
  - symmetry. now apply Z.eqb_eq.
  - symmetry. apply Z.eqb_neq. lia.
  - symmetry. apply Z.eqb_neq. lia.
Qed.

(** The sign of a difference of finite numbers is the sign of the exact
    difference: no difference of distinct numbers rounds to zero. *)
Theorem SFsub_sign a s :
  ordinary a = true -> ordinary s = true ->
  finite_SF a = true -> finite_SF s = true ->
  SFltb (S754_zero false) (SFsub prec emax a s) = SFltb s a /\
  SFltb (SFsub prec emax a s) (S754_zero false) = SFltb a s /\
  SFeqb (SFsub prec emax a s) (S754_zero false) = SFeqb a s.
Proof.
  intros Oa Os Fa Fs.
  destruct (SFsub_units a s Oa Os Fa Fs) as [O U].
  rewrite !SFltb_units, !SFeqb_units, U by (assumption || reflexivity).
  cbn [Binary.units].
  set (d := units a - units s).
  pose proof (clamp_round_pos d). pose proof (clamp_round_neg d).
  pose proof clamp_round_0 as R0.
  destruct (Z.lt_trichotomy d 0) as [L|[E|G]].
  - repeat split.
    + destruct (Z.ltb_spec 0 (clamp (round d))), (Z.ltb_spec (units s) (units a));
        try reflexivity; lia.
    + destruct (Z.ltb_spec (clamp (round d)) 0), (Z.ltb_spec (units a) (units s));
        try reflexivity; lia.
    + destruct (Z.eqb_spec (clamp (round d)) 0), (Z.eqb_spec (units a) (units s));
        try reflexivity; lia.
  - rewrite E, R0. repeat split.
    + destruct (Z.ltb_spec (units s) (units a)); [lia|reflexivity].
    + destruct (Z.ltb_spec (units a) (units s)); [lia|reflexivity].
    + destruct (Z.eqb_spec (units a) (units s)); [reflexivity|lia].
  - repeat split.
    + destruct (Z.ltb_spec 0 (clamp (round d))), (Z.ltb_spec (units s) (units a));
        try reflexivity; lia.
    + destruct (Z.ltb_spec (clamp (round d)) 0), (Z.ltb_spec (units a) (units s));
        try reflexivity; lia.
    + destruct (Z.eqb_spec (clamp (round d)) 0), (Z.eqb_spec (units a) (units s));
        try reflexivity; lia.
Qed.

(** A count with at most [prec] digits before its trailing zeros is a
    number of the format. *)
Lemma round_pos_multiple M t :
  0 < M -> digits M <= prec -> 0 <= t ->
  round_pos (M * 2 ^ t) = M * 2 ^ t.
Proof.
  intros HM Hd Ht. pose proof (digits_pos M HM).
  unfold round_pos, round_at. rewrite digits_mul_pow2 by lia.
  set (k := Z.max (digits M + t - prec) 0).
  assert (Hk : 0 <= k <= t) by lia.
  replace t with (t - k + k) by lia.
  rewrite (pow2_split (t - k) k) by lia.
  rewrite Z.mul_assoc.
  replace k with (0 + k) at 1 by lia.
  rewrite round_quot_scale by lia. rewrite round_quot_0. reflexivity.
Qed.

(** The difference [a - s] is exact when [s <= a <= 2 s]. *)
Theorem SFsub_exact a s :
  ordinary a = true -> ordinary s = true ->
  finite_SF a = true -> finite_SF s = true ->
  units s <= units a <= 2 * units s ->
  units (SFsub prec emax a s) = units a - units s.
Proof.
  intros Oa Os Fa Fs Hb.
  destruct (SFsub_units a s Oa Os Fa Fs) as [_ ->].
  destruct (Z.eq_dec (units a - units s) 0) as [E|NE].
  { rewrite E. apply clamp_round_0. }
  destruct s as [ss|ss| |ss ms es]; try discriminate Fs;
    [cbn [Binary.units] in *; lia|].
  destruct a as [sa|sa| |sa ma ea]; try discriminate Fa;
    [cbn [Binary.units] in *; destruct ss; cbn [cond_Zopp] in *; lia|].
  pose proof (ordinary_finite _ _ _ Oa) as [Ca Ba].
  pose proof (ordinary_finite _ _ _ Os) as [Cs Bs].
  cbn [Binary.units] in *.
  destruct ss; cbn [cond_Zopp] in *; [lia|].
  destruct sa; cbn [cond_Zopp] in *; [lia|].
  assert (Hea : es <= ea).
  { destruct (Z.le_gt_cases es ea) as [H|H]; [exact H|].
    pose proof (canonical_lt ma ea ms es Ca Cs ltac:(lia)). lia. }
  pose proof Cs as Cs'. apply canonical_spec in Cs' as (Es & Ds & _).
  set (t := es - emin) in *.
  assert (Ht : 0 < 2 ^ t) by (apply Z.pow_pos_nonneg; lia).
  assert (Ea : Zpos ma * 2 ^ (ea - emin) = Zpos ma * 2 ^ (ea - es) * 2 ^ t).
  { rewrite <- Z.mul_assoc, <- pow2_split by lia. do 2 f_equal. lia. }
  rewrite Ea in *.
  set (A := Zpos ma * 2 ^ (ea - es)) in *.
  replace (A * 2 ^ t - Zpos ms * 2 ^ t) with ((A - Zpos ms) * 2 ^ t) in * by lia.
  assert (HM : 0 < A - Zpos ms <= Zpos ms) by nia.
  pose proof (digits_le (A - Zpos ms) (Zpos ms) ltac:(lia)).
  unfold Binary.round.
  destruct (Z.ltb_spec ((A - Zpos ms) * 2 ^ t) 0); [nia|].
  rewrite round_pos_multiple by lia.
  unfold Binary.clamp. nia.
Qed.

End Format.

(** *** Binary64 and the primitive floats *)

(** A finite primitive float is specified by a valid zero or finite
    [spec_float]. *)
Lemma finite_ordinary (x : float) :
  is_finite x = true ->
  Binary.ordinary prec emax (Prim2SF x) = true /\
  Binary.finite_SF (Prim2SF x) = true.
Proof.
  unfold is_finite, is_nan, is_infinity, Binary.ordinary.
  rewrite !FloatAxioms.eqb_spec, abs_spec, Prim2SF_valid. intros H.
  destruct (Prim2SF x) as [s|[]| |s m e]; cbn in H |- *;
    try discriminate H; split; reflexivity.
Qed.

(** Binary64 subtraction of a finite [s] is monotone on finite numbers. *)
Theorem sub_le_mono (a b s : float) :
  is_finite a = true -> is_finite b = true -> is_finite s = true ->
  (a <=? b)%float = true -> (a - s <=? b - s)%float = true.
Proof.
  intros [Oa Fa]%finite_ordinary [Ob Fb]%finite_ordinary
    [Os Fs]%finite_ordinary.
  rewrite !leb_spec, !sub_spec. intros Hle.
  apply (SFsub_le_mono prec emax); (reflexivity || assumption).
Qed.

(** The binary64 difference [a - s] of finite numbers [s <= a] is not
    negative. *)
Theorem sub_nonneg (a s : float) :
  is_finite a = true -> is_finite s = true ->
  (s <=? a)%float = true -> (0 <=? a - s)%float = true.
Proof.
  intros [Oa Fa]%finite_ordinary [Os Fs]%finite_ordinary.
  rewrite !leb_spec, !sub_spec. intros Hle.
  apply (SFsub_nonneg prec emax); (reflexivity || assumption).
Qed.

(** The sign of a binary64 difference of finite numbers tells how they
    compare. *)
Theorem sub_sign (a s : float) :
  is_finite a = true -> is_finite s = true ->
  (0 <? a - s)%float = (s <? a)%float /\
  (a - s <? 0)%float = (a <? s)%float /\
  (a - s =? 0)%float = (a =? s)%float.
Proof.
  intros [Oa Fa]%finite_ordinary [Os Fs]%finite_ordinary.
  rewrite !ltb_spec, !FloatAxioms.eqb_spec, !sub_spec.
  apply (SFsub_sign prec emax); (reflexivity || assumption).
Qed.

(** The binary64 difference [a - s] of finite numbers with
    [s <= a <= 2 s] is exact. *)
Theorem sub_exact (a s : float) :
  is_finite a = true -> is_finite s = true ->
  (float_units s <= float_units a <= 2 * float_units s)%Z ->
  float_units (a - s) = (float_units a - float_units s)%Z.
Proof.
  intros [Oa Fa]%finite_ordinary [Os Fs]%finite_ordinary Hb.
  unfold float_units in *. rewrite sub_spec.
  apply (SFsub_exact prec emax); (reflexivity || assumption).
Qed.

End BinaryFacts.

(** * The program *)

Section ScaffoldFacts.

Variable PROJECT_NAME : string.
Variable PORT : Z.
Variable wall_clock : nat -> float.
Variable int_of_str : string -> option Z.

Abbreviation main_module := (main_module PROJECT_NAME wall_clock).
Abbreviation main_script :=
  (main_script PROJECT_NAME PORT wall_clock int_of_str).
Abbreviation health := (health wall_clock).
Abbreviation root := (root PROJECT_NAME).
Abbreviation call := (call PROJECT_NAME wall_clock).
Abbreviation handle := (handle PROJECT_NAME wall_clock).
Abbreviation reachable := (reachable PROJECT_NAME wall_clock).
Abbreviation serves := (serves PROJECT_NAME wall_clock).
Abbreviation serving := (serving PROJECT_NAME wall_clock).
Abbreviation the_app := (the_app PROJECT_NAME).
Abbreviation health_body := (health_body wall_clock).

(** ** Import *)

Lemma import_ok environ file :
  main_module (boot environ file) = (Return tt, serving environ file 1).
Proof. reflexivity. Qed.

Lemma main_script_spec environ file :
  main_script (boot environ file) =
  match (environ ∪ file) !! "PORT" with
  | None =>
      (Return (mkRun "main:app" "0.0.0.0" PORT true), serving environ file 1)
  | Some s =>
      match int_of_str s with
      | Some n =>
          (Return (mkRun "main:app" "0.0.0.0" n true), serving environ file 1)
      | None => (Raise ValueError, serving environ file 1)
      end
  end.
Proof.
  unfold main_script. unfold mbind at 1, M_bind at 1.
  rewrite import_ok.
  unfold mbind at 1, M_bind at 1. unfold os_getenv.
  unfold mbind at 1, M_bind at 1. unfold get_state.
  change (os_environ (serving environ file 1)) with (environ ∪ file).
  destruct ((environ ∪ file) !! "PORT") as [s|]; cbn; [|reflexivity].
  destruct (int_of_str s); reflexivity.
Qed.

(** ** Requests *)

Lemma handle_serving environ file n method path :
  handle method path (serving environ file n) =
  match dispatch the_app method path with
  | Some Root =>
      (Return (Some [("message", PyStr ("Welcome to " ++ PROJECT_NAME))]),
       serving environ file n)
  | Some Health => (Return (Some (health_body n)), serving environ file (S n))
  | Some Ready =>
      (Return (Some [("ready", PyBool true)]), serving environ file n)
  | None => (Return None, serving environ file n)
  end.
Proof.
  unfold handle. unfold mbind at 1, M_bind at 1.
  change (load_global app (serving environ file n))
    with (Return the_app, serving environ file n).
  cbv beta iota.
  destruct (dispatch the_app method path) as [[]|]; reflexivity.
Qed.

Lemma reachable_serving environ file st :
  reachable environ file st -> exists n, st = serving environ file n.
Proof.
  induction 1 as [st H|st method path r st' _ [n ->] H].
  - rewrite import_ok in H. exists 1%nat. congruence.
  - rewrite handle_serving in H.
    destruct (dispatch the_app method path) as [[]|];
      injection H as _ <-; eauto.
Qed.

Lemma serves_reachable environ file st st' :
  serves st st' -> reachable environ file st -> reachable environ file st'.
Proof.
  induction 1 as [|st method path r st1 st2 H _ IH]; intros R; [exact R|].
  apply IH. exact (reach_request _ _ _ _ _ _ _ _ _ R H).
Qed.

Lemma health_unfold st :
  health st =
  match start_time st with
  | Some t0 =>
      (Return [("status", PyStr "healthy");
               ("uptime", PyFloat (wall_clock (clock_reads st) - t0)%float)],
       tick st)
  | None => (Raise NameError, tick st)
  end.
Proof. destruct st as [n d e [t0|] r a]; reflexivity. Qed.

Lemma call_frame f st : program_state (snd (call f st)) = program_state st.
Proof.
  destruct f; [reflexivity| |reflexivity].
  change (call Health st) with (health st). rewrite health_unfold.
  destruct (start_time st); reflexivity.
Qed.

(** ** The health endpoint *)

Lemma handle_health environ file st :
  reachable environ file st ->
  handle "GET" "/health/" st =
  (Return (Some (health_body (clock_reads st))), tick st).
Proof.
  intros [n ->]%reachable_serving. rewrite handle_serving. reflexivity.
Qed.

(** C3: in every state of a serving process [GET /health/] succeeds; the
    body has the two keys [status] and [uptime], in this order, [status]
    is the string [healthy] and [uptime] is the clock reading of the call
    minus the reading taken when the process started, as a binary64
    subtraction.  The reading of the start is [start_time], the first
    reading of the process. *)
Theorem health_reports_status_and_uptime environ file st :
  reachable environ file st ->
  start_time st = Some (wall_clock 0) /\
  handle "GET" "/health/" st =
    (Return (Some [("status", PyStr "healthy");
                   ("uptime",
                    PyFloat (wall_clock (clock_reads st) - wall_clock 0)%float)]),
     tick st).
Proof.
  intros R. split; [|exact (handle_health environ file st R)].
  apply reachable_serving in R as [n ->]. reflexivity.
Qed.

(** C4, as amended: the clock readings being finite numbers, the uptime
    that [GET /health/] reports is not negative when the reading of the
    call is not below the reading taken at the start, and it is negative
    when the reading of the call is below the reading taken at the
    start. *)
Theorem uptime_nonneg_when_clock_not_set_back environ file st d st' u :
  reachable environ file st ->
  handle "GET" "/health/" st = (Return (Some d), st') ->
  dict_get d "uptime" = Some (PyFloat u) ->
  is_finite (wall_clock 0) = true ->
  is_finite (wall_clock (clock_reads st)) = true ->
  ((wall_clock 0 <=? wall_clock (clock_reads st))%float = true ->
   (0 <=? u)%float = true) /\
  ((wall_clock (clock_reads st) <? wall_clock 0)%float = true ->
   (u <? 0)%float = true).
Proof.
  intros R H Hu F0 F1.
  rewrite (handle_health environ file st R) in H. injection H as <- _.
  cbn in Hu. injection Hu as <-. split.
  - intros Hle. now apply BinaryFacts.sub_nonneg.
  - intros Hlt.
    destruct (BinaryFacts.sub_sign (wall_clock (clock_reads st))
                (wall_clock 0) F1 F0) as (_ & E & _).
    now rewrite E.
Qed.

(** C1, as amended: of two calls of [GET /health/] in one process, the
    later one reports an uptime that is not below the earlier one's,
    provided the clock reading of the later call is not below the reading
    of the earlier call (the readings being finite numbers). *)
Theorem uptime_monotone_when_clock_monotone
    environ file st d1 st1 st2 d2 st3 u1 u2 :
  reachable environ file st ->
  handle "GET" "/health/" st = (Return (Some d1), st1) ->
  serves st1 st2 ->
  handle "GET" "/health/" st2 = (Return (Some d2), st3) ->
  dict_get d1 "uptime" = Some (PyFloat u1) ->
  dict_get d2 "uptime" = Some (PyFloat u2) ->
  is_finite (wall_clock 0) = true ->
  is_finite (wall_clock (clock_reads st)) = true ->
  is_finite (wall_clock (clock_reads st2)) = true ->
  (wall_clock (clock_reads st) <=? wall_clock (clock_reads st2))%float = true ->
  (u1 <=? u2)%float = true.
Proof.
  intros R H1 S H2 Hu1 Hu2 F0 F1 F2 Hle.
  assert (R1 : reachable environ file st1)
    by exact (reach_request _ _ _ _ _ _ _ _ _ R H1).
  pose proof (serves_reachable environ file st1 st2 S R1) as R2.
  rewrite (handle_health environ file st R) in H1. injection H1 as <- _.
  rewrite (handle_health environ file st2 R2) in H2. injection H2 as <- _.
  cbn in Hu1, Hu2. injection Hu1 as <-. injection Hu2 as <-.
  now apply BinaryFacts.sub_le_mono.
Qed.

(** C5: [ready] returns the body [{"ready": true}] and leaves the state as
    it is, in whatever state it is called; in a serving process
    [GET /health/ready] is answered by it. *)
Theorem ready_is_unconditional environ file st :
  reachable environ file st ->
  handle "GET" "/health/ready" st = (Return (Some [("ready", PyBool true)]), st) /\
  forall st' : State, ready st' = (Return [("ready", PyBool true)], st').
Proof.
  intros [n ->]%reachable_serving. split; [|reflexivity].
  rewrite handle_serving. reflexivity.
Qed.

(** ** The root endpoint *)

(** C6: in every state of a serving process [GET /] succeeds, answers the
    greeting with the project's name and changes nothing, not even the
    position in the clock. *)
Theorem root_greets environ file st :
  reachable environ file st ->
  handle "GET" "/" st =
    (Return (Some [("message", PyStr ("Welcome to " ++ PROJECT_NAME))]), st).
Proof.
  intros [n ->]%reachable_serving. rewrite handle_serving. reflexivity.
Qed.

(** ** Initialization *)

(** C7: importing the module succeeds and leaves the application with one
    middleware, the CORS policy whose origins, methods and headers are the
    wildcard and which allows credentials. *)
Theorem cors_policy_is_permissive environ file :
  exists st a c,
    main_module (boot environ file) = (Return tt, st) /\
    app st = Some a /\
    user_middleware a = [c] /\
    c = mkCORS ["*"] true ["*"] ["*"] /\
    permits_all (allow_origins c) = true /\
    allow_credentials c = true /\
    permits_all (allow_methods c) = true /\
    permits_all (allow_headers c) = true.
Proof.
  exists (serving environ file 1), the_app, (mkCORS ["*"] true ["*"] ["*"]).
  repeat split.
Qed.

(** C8: [start_time] is unbound in a fresh interpreter and bound by the
    import to the reading taken then; every state of the serving process
    holds that same value, and no endpoint and no request changes the
    program's state. *)
Theorem start_time_is_written_once environ file st :
  reachable environ file st ->
  start_time (boot environ file) = None /\
  start_time (snd (main_module (boot environ file))) = Some (wall_clock 0) /\
  start_time st = Some (wall_clock 0) /\
  (forall f, program_state (snd (call f st)) = program_state st) /\
  (forall method path,
     program_state (snd (handle method path st)) = program_state st).
Proof.
  intros [n ->]%reachable_serving.
  split; [reflexivity|]. split; [reflexivity|]. split; [reflexivity|].
  split; [intros f; apply call_frame|].
  intros method path. rewrite handle_serving.
  destruct (dispatch the_app method path) as [[]|]; reflexivity.
Qed.

(** C2, as amended: up to its call of [uvicorn.run], the script fails if
    and only if [PORT] is set, once [load_dotenv] has run, to a text that
    [int] does not accept; the failure is that [ValueError].  Nothing
    else in the program's own code fails: the import succeeds, and every
    request to a serving process is answered. *)
Theorem startup_fails_iff_port_is_not_an_integer environ file :
  ((exists e st, main_script (boot environ file) = (Raise e, st)) <->
   (exists s, (environ ∪ file) !! "PORT" = Some s /\ int_of_str s = None)) /\
  (forall e st, main_script (boot environ file) = (Raise e, st) -> e = ValueError) /\
  (exists st, main_module (boot environ file) = (Return tt, st)) /\
  (forall st method path,
     reachable environ file st ->
     exists r st', handle method path st = (Return r, st')).
Proof.
  split; [|split; [|split]].
  - rewrite main_script_spec. split.
    + intros (e & st & H).
      destruct ((environ ∪ file) !! "PORT") as [s|]; [|discriminate H].
      exists s. split; [reflexivity|].
      destruct (int_of_str s); [discriminate H|reflexivity].
    + intros (s & -> & ->). eauto.
  - intros e st. rewrite main_script_spec.
    destruct ((environ ∪ file) !! "PORT") as [s|]; [|discriminate].
    destruct (int_of_str s); [discriminate|]. now intros [= <- _].
  - exists (serving environ file 1). apply import_ok.
  - intros st method path [n ->]%reachable_serving.
    rewrite handle_serving.
    destruct (dispatch the_app method path) as [[]|]; eauto.
Qed.

(** C9: when [PORT] is not set once [load_dotenv] has run, the launcher is
    given the default port; when it is set to a text that [int] reads as
    [n], the launcher is given [n]. *)
Theorem port_comes_from_environment environ file :
  ((environ ∪ file) !! "PORT" = None ->
   exists st,
     main_script (boot environ file) =
     (Return (mkRun "main:app" "0.0.0.0" PORT true), st)) /\
  (forall s n,
     (environ ∪ file) !! "PORT" = Some s -> int_of_str s = Some n ->
     exists st,
       main_script (boot environ file) =
       (Return (mkRun "main:app" "0.0.0.0" n true), st)).
Proof.
  split.
  - intros H. rewrite main_script_spec, H. eauto.
  - intros s n H Hn. rewrite main_script_spec, H, Hn. eauto.
Qed.

(** X1: the launcher fails with [ValueError] when [PORT] is set to a text
    that [int] does not accept; otherwise it calls [uvicorn.run] for
    [main:app] on all interfaces with reloading on, and with the
    configured port: the integer that [int] reads from [PORT], the default
    when [PORT] is not set. *)
Theorem launcher_calls_uvicorn environ file :
  exists st,
    main_script (boot environ file) =
    (match (environ ∪ file) !! "PORT" with
     | None => Return (mkRun "main:app" "0.0.0.0" PORT true)
     | Some s =>
         match int_of_str s with
         | Some n => Return (mkRun "main:app" "0.0.0.0" n true)
         | None => Raise ValueError
         end
     end, st).
Proof.
  exists (serving environ file 1). rewrite main_script_spec.
  destruct ((environ ∪ file) !! "PORT") as [s|]; [|reflexivity].
  destruct (int_of_str s); reflexivity.
Qed.

(** X2: the import mounts the health router under [/health]: the application
    has the three routes, and [GET] on each path reaches its endpoint. *)
Theorem health_router_is_mounted environ file :
  exists st a,
    main_module (boot environ file) = (Return tt, st) /\
    app st = Some a /\
    title a = PROJECT_NAME /\
    map route_path (routes a) = ["/health/"; "/health/ready"; "/"] /\
    dispatch a "GET" "/health/" = Some Health /\
    dispatch a "GET" "/health/ready" = Some Ready /\
    dispatch a "GET" "/" = Some Root.
Proof.
  exists (serving environ file 1), the_app. repeat split.
Qed.

End ScaffoldFacts.

(** C10: the bodies that [GET /] and [GET /health/ready] answer with are
    the same in any two states of any two processes of the program,
    whatever their environments, [.env] files and clocks; and the endpoint
    functions return the same bodies in any two states at all. *)
Theorem root_and_ready_are_deterministic
    name wall1 wall2 environ1 file1 environ2 file2 st1 st2 :
  reachable name wall1 environ1 file1 st1 ->
  reachable name wall2 environ2 file2 st2 ->
  fst (handle name wall1 "GET" "/" st1) = fst (handle name wall2 "GET" "/" st2) /\
  fst (handle name wall1 "GET" "/health/ready" st1) =
  fst (handle name wall2 "GET" "/health/ready" st2) /\
  (forall st st' : State, fst (root name st) = fst (root name st')) /\
  (forall st st' : State, fst (ready st) = fst (ready st')).
Proof.
  intros [n1 ->]%reachable_serving [n2 ->]%reachable_serving.
  rewrite !handle_serving. repeat split.
Qed.

(** * Sample runs of the program *)

(** The process of the sample runs: project [demo], no [.env] file,
    [PORT=8080] in the environment. *)
Lemma demo_reachable (wall : nat -> float) (n : nat) :
  reachable "demo" wall {["PORT" := "8080"]} ∅
    (serving "demo" wall {["PORT" := "8080"]} ∅ (S n)).
Proof.
  induction n as [|n IH].
  - apply reach_import, import_ok.
  - eapply (reach_request _ _ _ _ _ "GET" "/health/"); [exact IH|].
    rewrite handle_serving. reflexivity.
Defined.

Lemma health_reports_status_and_uptime_witness :
  handle "demo" steady_clock "GET" "/health/"
    (serving "demo" steady_clock {["PORT" := "8080"]} ∅ 1) =
  (Return (Some [("status", PyStr "healthy"); ("uptime", PyFloat 1.5)]),
   serving "demo" steady_clock {["PORT" := "8080"]} ∅ 2).
Proof.
  exact (proj2 (health_reports_status_and_uptime "demo" steady_clock
                  {["PORT" := "8080"]} ∅ _ (demo_reachable steady_clock 0))).
Defined.

(** C4 does not hold without the condition on the clock: the clock is
    set back by 50 seconds after the start, and the first [GET /health/]
    reports an uptime of -50 seconds. *)
Lemma uptime_negative_after_clock_set_back :
  reachable "demo" clock_before_start {["PORT" := "8080"]} ∅
    (serving "demo" clock_before_start {["PORT" := "8080"]} ∅ 1) /\
  handle "demo" clock_before_start "GET" "/health/"
    (serving "demo" clock_before_start {["PORT" := "8080"]} ∅ 1) =
  (Return (Some [("status", PyStr "healthy"); ("uptime", PyFloat (-50))]),
   serving "demo" clock_before_start {["PORT" := "8080"]} ∅ 2) /\
  (0 <=? -50)%float = false.
Proof.
  split; [apply demo_reachable|]. split; [|reflexivity].
  rewrite handle_serving. reflexivity.
Qed.

Lemma uptime_nonneg_when_clock_not_set_back_witness :
  (0 <=? 1.5)%float = true /\ (-50 <? 0)%float = true.
Proof.
  split.
  - apply (proj1 (uptime_nonneg_when_clock_not_set_back "demo" steady_clock
             {["PORT" := "8080"]} ∅
             (serving "demo" steady_clock {["PORT" := "8080"]} ∅ 1)
             [("status", PyStr "healthy"); ("uptime", PyFloat 1.5)]
             (serving "demo" steady_clock {["PORT" := "8080"]} ∅ 2) 1.5
             (demo_reachable steady_clock 0)
             (handle_health "demo" steady_clock _ _ _
                (demo_reachable steady_clock 0))
             eq_refl eq_refl eq_refl)).
    reflexivity.
  - apply (proj2 (uptime_nonneg_when_clock_not_set_back "demo"
             clock_before_start {["PORT" := "8080"]} ∅
             (serving "demo" clock_before_start {["PORT" := "8080"]} ∅ 1)
             [("status", PyStr "healthy"); ("uptime", PyFloat (-50))]
             (serving "demo" clock_before_start {["PORT" := "8080"]} ∅ 2)
             (-50)
             (demo_reachable clock_before_start 0)
             (handle_health "demo" clock_before_start _ _ _
                (demo_reachable clock_before_start 0))
             eq_refl eq_refl eq_refl)).
    reflexivity.
Defined.

(** C1 does not hold without the condition on the clock: the clock is
    set back by 50 seconds between two calls, and the uptime goes from
    100 to 50 seconds. *)
Lemma uptime_decreases_after_clock_set_back :
  reachable "demo" clock_set_back {["PORT" := "8080"]} ∅
    (serving "demo" clock_set_back {["PORT" := "8080"]} ∅ 1) /\
  handle "demo" clock_set_back "GET" "/health/"
    (serving "demo" clock_set_back {["PORT" := "8080"]} ∅ 1) =
  (Return (Some [("status", PyStr "healthy"); ("uptime", PyFloat 100)]),
   serving "demo" clock_set_back {["PORT" := "8080"]} ∅ 2) /\
  handle "demo" clock_set_back "GET" "/health/"
    (serving "demo" clock_set_back {["PORT" := "8080"]} ∅ 2) =
  (Return (Some [("status", PyStr "healthy"); ("uptime", PyFloat 50)]),
   serving "demo" clock_set_back {["PORT" := "8080"]} ∅ 3) /\
  (100 <=? 50)%float = false.
Proof.
  split; [apply demo_reachable|].
  split; [rewrite handle_serving; reflexivity|].
  split; [rewrite handle_serving; reflexivity|reflexivity].
Qed.

Lemma uptime_monotone_when_clock_monotone_witness :
  (1.5 <=? 2.25)%float = true.
Proof.
  apply (uptime_monotone_when_clock_monotone "demo" steady_clock
           {["PORT" := "8080"]} ∅
           (serving "demo" steady_clock {["PORT" := "8080"]} ∅ 1)
           [("status", PyStr "healthy"); ("uptime", PyFloat 1.5)]
           (serving "demo" steady_clock {["PORT" := "8080"]} ∅ 2)
           (serving "demo" steady_clock {["PORT" := "8080"]} ∅ 2)
           [("status", PyStr "healthy"); ("uptime", PyFloat 2.25)]
           (serving "demo" steady_clock {["PORT" := "8080"]} ∅ 3) 1.5 2.25).
  - apply demo_reachable.
  - rewrite handle_serving. reflexivity.
  - apply (serves_step _ _ _ "GET" "/health/ready"
             (Return (Some [("ready", PyBool true)]))
             (serving "demo" steady_clock {["PORT" := "8080"]} ∅ 2)).
    + rewrite handle_serving. reflexivity.
    + apply serves_refl.
  - rewrite handle_serving. reflexivity.
  - reflexivity.
  - reflexivity.
  - reflexivity.
  - reflexivity.
  - reflexivity.
  - reflexivity.
Defined.

Lemma ready_is_unconditional_witness :
  handle "demo" steady_clock "GET" "/health/ready"
    (serving "demo" steady_clock {["PORT" := "8080"]} ∅ 1) =
  (Return (Some [("ready", PyBool true)]),
   serving "demo" steady_clock {["PORT" := "8080"]} ∅ 1).
Proof.
  exact (proj1 (ready_is_unconditional "demo" steady_clock
                  {["PORT" := "8080"]} ∅ _ (demo_reachable steady_clock 0))).
Defined.

Lemma root_greets_witness :
  handle "demo" steady_clock "GET" "/"
    (serving "demo" steady_clock {["PORT" := "8080"]} ∅ 1) =
  (Return (Some [("message", PyStr "Welcome to demo")]),
   serving "demo" steady_clock {["PORT" := "8080"]} ∅ 1).
Proof.
  exact (root_greets "demo" steady_clock
           {["PORT" := "8080"]} ∅ _ (demo_reachable steady_clock 0)).
Defined.

Lemma start_time_is_written_once_witness :
  start_time (serving "demo" steady_clock {["PORT" := "8080"]} ∅ 3) = Some 1000%float.
Proof.
  exact (proj1 (proj2 (proj2
           (start_time_is_written_once "demo" steady_clock
              {["PORT" := "8080"]} ∅ _ (demo_reachable steady_clock 2))))).
Defined.

Lemma startup_fails_iff_port_is_not_an_integer_witness :
  exists e st,
    main_script "demo" 8000 steady_clock decimal
      (boot {["PORT" := "eighty"]} ∅) = (Raise e, st).
Proof.
  apply (proj1 (startup_fails_iff_port_is_not_an_integer "demo" 8000
                  steady_clock decimal {["PORT" := "eighty"]} ∅)).
  exists "eighty". split; reflexivity.
Defined.

(** C2 does not hold for the start as a whole: [PORT=70000] is numeric,
    [int] reads it and the launcher calls [uvicorn.run] with it, but
    nothing listens on a port above 65535, also when the system refuses
    no port. *)
Lemma numeric_port_out_of_range_does_not_start :
  ({["PORT" := "70000"]} ∪ ∅ : gmap string string) !! "PORT" = Some "70000" /\
  decimal "70000" = Some 70000%Z /\
  main_script "demo" 8000 steady_clock decimal
    (boot {["PORT" := "70000"]} ∅) =
  (Return (mkRun "main:app" "0.0.0.0" 70000 true),
   serving "demo" steady_clock {["PORT" := "70000"]} ∅ 1) /\
  process_starts "demo" 8000 steady_clock decimal (fun _ => false)
    {["PORT" := "70000"]} ∅ = false.
Proof.
  assert (E : main_script "demo" 8000 steady_clock decimal
                (boot {["PORT" := "70000"]} ∅) =
              (Return (mkRun "main:app" "0.0.0.0" 70000 true),
               serving "demo" steady_clock {["PORT" := "70000"]} ∅ 1)).
  { rewrite main_script_spec. reflexivity. }
  split; [reflexivity|]. split; [reflexivity|]. split; [exact E|].
  unfold process_starts. rewrite E. reflexivity.
Qed.

Lemma port_comes_from_environment_witness :
  (exists st,
     main_script "demo" 8000 steady_clock decimal (boot ∅ ∅) =
     (Return (mkRun "main:app" "0.0.0.0" 8000 true), st)) /\
  (exists st,
     main_script "demo" 8000 steady_clock decimal
       (boot {["PORT" := "8080"]} ∅) =
     (Return (mkRun "main:app" "0.0.0.0" 8080 true), st)).
Proof.
  split.
  - apply (proj1 (port_comes_from_environment "demo" 8000 steady_clock
                    decimal ∅ ∅)).
    reflexivity.
  - apply (proj2 (port_comes_from_environment "demo" 8000 steady_clock
                    decimal {["PORT" := "8080"]} ∅) "8080" 8080%Z);
      reflexivity.
Defined.

Lemma root_and_ready_are_deterministic_witness :
  fst (handle "demo" steady_clock "GET" "/"
         (serving "demo" steady_clock {["PORT" := "8080"]} ∅ 1)) =
  fst (handle "demo" clock_set_back "GET" "/"
         (serving "demo" clock_set_back {["PORT" := "8080"]} ∅ 3)).
Proof.
  exact (proj1 (root_and_ready_are_deterministic "demo" steady_clock
                  clock_set_back {["PORT" := "8080"]} ∅ {["PORT" := "8080"]} ∅
                  _ _ (demo_reachable steady_clock 0)
                  (demo_reachable clock_set_back 2))).
Defined.

(** * More of the program: routing, runs, the environment, the uptime *)

Section ScaffoldMore.

Variable PROJECT_NAME : string.
Variable PORT : Z.
Variable wall_clock : nat -> float.
Variable int_of_str : string -> option Z.

Abbreviation main_script :=
  (main_script PROJECT_NAME PORT wall_clock int_of_str).
Abbreviation handle := (handle PROJECT_NAME wall_clock).
Abbreviation reachable := (reachable PROJECT_NAME wall_clock).
Abbreviation serving := (serving PROJECT_NAME wall_clock).
Abbreviation serve_all := (serve_all PROJECT_NAME wall_clock).
Abbreviation the_app := (the_app PROJECT_NAME).
Abbreviation health_body := (health_body wall_clock).

(** ** Routing *)

Lemma dispatch_spec method path :
  dispatch the_app method path =
  if String.eqb method "GET" then
    if path_matches "/health/" path then Some Health
    else if path_matches "/health/ready" path then Some Ready
    else if path_matches "/" path then Some Root
    else None
  else None.
Proof using Type.
  unfold dispatch, the_app, route_matches.
  cbn [routes find route_path route_methods route_endpoint existsb option_map].
  destruct (String.eqb method "GET"), (path_matches "/health/" path),
    (path_matches "/health/ready" path), (path_matches "/" path); reflexivity.
Qed.

Lemma path_matches_spec route path :
  path_matches route path = true <-> path = route \/ path = route ++ newline.
Proof using Type.
  unfold path_matches. rewrite orb_true_iff, !String.eqb_eq.
  split; intros [E|E]; auto.
Qed.

Lemma routed_spec path :
  routed path <->
  path_matches "/health/" path = true \/
  path_matches "/health/ready" path = true \/
  path_matches "/" path = true.
Proof using Type.
  rewrite !path_matches_spec. unfold routed, route_paths. split.
  - intros (r & [<-|[<-|[<-|[]]]] & H); auto.
  - intros [H|[H|H]]; eexists; (split; [|exact H]); cbn; auto.
Qed.

(** X3: in a serving process a request is answered by an endpoint exactly
    when its method is [GET] and its path is [/], [/health/] or
    [/health/ready], or one of these followed by a line feed; any other
    request is left to the framework, and the state stays as it is. *)
Theorem endpoints_answer_only_their_routes environ file st method path :
  reachable environ file st ->
  (handle method path st = (Return None, st) <->
   ~ (method = "GET" /\ routed path)) /\
  ((exists body st', handle method path st = (Return (Some body), st')) <->
   method = "GET" /\ routed path).
Proof using Type.
  clear PORT int_of_str.
  intros [n ->]%reachable_serving.
  rewrite handle_serving, dispatch_spec, routed_spec.
  destruct (String.eqb_spec method "GET") as [->|Hm].
  2:{ split; split; try tauto.
      intros (body & st' & H). discriminate H. }
  destruct (path_matches "/health/" path).
  { split; split; try tauto; try discriminate; eauto. }
  destruct (path_matches "/health/ready" path).
  { split; split; try tauto; try discriminate; eauto. }
  destruct (path_matches "/" path).
  { split; split; try tauto; try discriminate; eauto. }
  split; split; try tauto.
  - intros _ [_ [E|[E|E]]]; discriminate E.
  - intros (body & st' & H). discriminate H.
  - intros [_ [E|[E|E]]]; discriminate E.
Qed.

(** ** Runs *)

Lemma serve_all_cons method path rest st :
  serve_all ((method, path) :: rest) st =
  match handle method path st with
  | (Return r, st') =>
      match serve_all rest st' with
      | (Return rs, st'') => (Return (r :: rs), st'')
      | (Raise e, st'') => (Raise e, st'')
      end
  | (Raise e, st') => (Raise e, st')
  end.
Proof using Type. reflexivity. Qed.

Lemma count_health_cons method path rest :
  count_health ((method, path) :: rest) =
  if String.eqb method "GET" && path_matches "/health/" path
  then S (count_health rest) else count_health rest.
Proof using Type.
  unfold count_health. cbn [List.filter]. unfold is_health at 1. cbn [fst snd].
  destruct (String.eqb method "GET" && path_matches "/health/" path);
    reflexivity.
Qed.

Lemma serve_all_serving environ file reqs : forall n,
  exists answers,
    serve_all reqs (serving environ file n) =
    (Return answers, serving environ file (n + count_health reqs)) /\
    length answers = length reqs /\
    uptimes answers =
    map (fun j => (wall_clock j - wall_clock 0)%float)
      (seq n (count_health reqs)).
Proof using Type.
  induction reqs as [|[method path] rest IH]; intros n.
  - exists []. rewrite Nat.add_0_r. repeat split.
  - rewrite serve_all_cons, handle_serving, dispatch_spec, count_health_cons.
    destruct (String.eqb method "GET"); cbn [andb].
    2:{ cbv beta iota. destruct (IH n) as (answers & -> & L & U).
        exists (None :: answers). cbn [length uptimes uptime_of].
        split; [reflexivity|]. split; [now rewrite L|exact U]. }
    destruct (path_matches "/health/" path).
    { cbv beta iota. destruct (IH (S n)) as (answers & -> & L & U).
      exists (Some (health_body n) :: answers).
      rewrite Nat.add_succ_r. cbn [length seq map].
      split; [reflexivity|]. split; [now rewrite L|].
      cbn. now rewrite U. }
    destruct (path_matches "/health/ready" path);
      [|destruct (path_matches "/" path)];
      cbv beta iota; destruct (IH n) as (answers & -> & L & U);
      eexists (_ :: answers); cbn [length];
      (split; [reflexivity|]); (split; [now rewrite L|exact U]).
Qed.

(** X4: when a serving process serves a list of requests one after the
    other, every request is answered, the program state stays as it is,
    and the clock is read once for each request of the list that is
    routed to [health] (a [GET] whose path is [/health/], with or without
    a line feed after it) and by no other request; the uptimes reported,
    in order, are the next readings of the clock, each minus the reading
    of the start. *)
Theorem clock_is_read_once_per_health_request environ file st reqs :
  reachable environ file st ->
  exists answers st',
    serve_all reqs st = (Return answers, st') /\
    length answers = length reqs /\
    program_state st' = program_state st /\
    clock_reads st' = (clock_reads st + count_health reqs)%nat /\
    uptimes answers =
    map (fun j => (wall_clock j - wall_clock 0)%float)
      (seq (clock_reads st) (count_health reqs)).
Proof using Type.
  intros [n ->]%reachable_serving.
  destruct (serve_all_serving environ file reqs n) as (answers & E & L & U).
  exists answers, (serving environ file (n + count_health reqs)).
  repeat split; assumption.
Qed.

(** ** The environment *)


(** ** The uptime *)

(** X6: the sign of the uptime that [GET /health/] reports tells how the
    clock reading of the call compares with the reading of the start
    (both finite): positive exactly when the clock is past it, zero
    exactly when they are equal, negative exactly when the clock is
    before it.  No uptime rounds to zero. *)
Theorem uptime_sign_follows_clock environ file st d st' u :
  reachable environ file st ->
  handle "GET" "/health/" st = (Return (Some d), st') ->
  dict_get d "uptime" = Some (PyFloat u) ->
  is_finite (wall_clock 0) = true ->
  is_finite (wall_clock (clock_reads st)) = true ->
  (0 <? u)%float = (wall_clock 0 <? wall_clock (clock_reads st))%float /\
  (u <? 0)%float = (wall_clock (clock_reads st) <? wall_clock 0)%float /\
  (u =? 0)%float = (wall_clock (clock_reads st) =? wall_clock 0)%float.
Proof using Type.
  intros R H Hu F0 F1.
  rewrite (handle_health PROJECT_NAME wall_clock environ file st R) in H.
  injection H as <- _. cbn in Hu. injection Hu as <-.
  now apply BinaryFacts.sub_sign.
Qed.

(** X7: the uptime that [GET /health/] reports is exact, the difference
    of the two readings without any rounding, as long as the reading of
    the call lies between the reading of the start and twice that
    reading. *)
Theorem uptime_is_exact_within_twice_the_start environ file st d st' u :
  reachable environ file st ->
  handle "GET" "/health/" st = (Return (Some d), st') ->
  dict_get d "uptime" = Some (PyFloat u) ->
  is_finite (wall_clock 0) = true ->
  is_finite (wall_clock (clock_reads st)) = true ->
  (float_units (wall_clock 0) <= float_units (wall_clock (clock_reads st))
   <= 2 * float_units (wall_clock 0))%Z ->
  float_units u =
  (float_units (wall_clock (clock_reads st)) - float_units (wall_clock 0))%Z.
Proof using Type.
  intros R H Hu F0 F1 Hb.
  rewrite (handle_health PROJECT_NAME wall_clock environ file st R) in H.
  injection H as <- _. cbn in Hu. injection Hu as <-.
  now apply BinaryFacts.sub_exact.
Qed.

End ScaffoldMore.

(** * More sample runs *)

Lemma endpoints_answer_only_their_routes_witness :
  handle "demo" steady_clock "POST" "/health/"
    (serving "demo" steady_clock {["PORT" := "8080"]} ∅ 1) =
  (Return None, serving "demo" steady_clock {["PORT" := "8080"]} ∅ 1).
Proof.
  apply (proj2 (proj1 (endpoints_answer_only_their_routes "demo"
                         steady_clock {["PORT" := "8080"]} ∅ _
                         "POST" "/health/" (demo_reachable steady_clock 0)))).
  intros [E _]. discriminate E.
Defined.

Lemma clock_is_read_once_per_health_request_witness :
  exists answers st',
    serve_all "demo" steady_clock sample_requests
      (serving "demo" steady_clock {["PORT" := "8080"]} ∅ 1) =
    (Return answers, st') /\
    length answers = 7%nat /\
    program_state st' =
    program_state (serving "demo" steady_clock {["PORT" := "8080"]} ∅ 1) /\
    clock_reads st' = 4%nat /\
    uptimes answers = [1.5; 2.25; 2.25]%float.
Proof.
  exact (clock_is_read_once_per_health_request "demo" steady_clock
           {["PORT" := "8080"]} ∅ _ sample_requests
           (demo_reachable steady_clock 0)).
Defined.


Lemma uptime_sign_follows_clock_witness :
  (0 <? -50)%float = (1000 <? 950)%float /\
  (-50 <? 0)%float = (950 <? 1000)%float /\
  (-50 =? 0)%float = (950 =? 1000)%float.
Proof.
  apply (uptime_sign_follows_clock "demo" clock_before_start
           {["PORT" := "8080"]} ∅
           (serving "demo" clock_before_start {["PORT" := "8080"]} ∅ 1)
           [("status", PyStr "healthy"); ("uptime", PyFloat (-50))]
           (serving "demo" clock_before_start {["PORT" := "8080"]} ∅ 2)
           (-50)%float).
  - apply demo_reachable.
  - rewrite handle_serving. reflexivity.
  - reflexivity.
  - reflexivity.
  - reflexivity.
Defined.

Lemma uptime_is_exact_within_twice_the_start_witness :
  float_units 1.5 = (float_units 1001.5 - float_units 1000)%Z.
Proof.
  apply (uptime_is_exact_within_twice_the_start "demo" steady_clock
           {["PORT" := "8080"]} ∅
           (serving "demo" steady_clock {["PORT" := "8080"]} ∅ 1)
           [("status", PyStr "healthy"); ("uptime", PyFloat 1.5)]
           (serving "demo" steady_clock {["PORT" := "8080"]} ∅ 2)
           1.5%float).
  - apply demo_reachable.
  - rewrite handle_serving. reflexivity.
  - reflexivity.
  - reflexivity.
  - reflexivity.
  - split; apply Z.leb_le; vm_compute; reflexivity.
Defined.
